(** * Parallel validation and expedited-peer registry of Bitcoin Unlimited

    A shallow embedding of [parallel.h] (the script-check closure
    [CScriptCheck], the queue vector [CAllScriptCheckQueues], the session map
    of [CParallelValidation]), of [connmgr.cpp] (the expedited-peer registry
    [CConnMgr]) and of the flag enumeration of [expedited.h].

    C++ objects that are mutated through references live in explicit stores;
    member functions are state-passing functions on those stores. *)

From Stdlib Require Import ZArith Lia.
From stdpp Require Import base numbers option list functions gmap fin_maps strings.

Local Open Scope Z_scope.

(** Addresses of C++ objects.  Address [0] is the null pointer. *)
Definition ptr := N.
Definition nullptr : ptr := 0%N.

(** A C++ reference argument: the address of the object it designates
    together with the object's current value. *)
Record cref (A : Type) := mk_cref { addr_of : ptr; deref : A }.
Arguments mk_cref {A} _ _.
Arguments addr_of {A} _.
Arguments deref {A} _.

(** ** expedited.h *)

Definition EXPEDITED_STOP : Z := 1.
Definition EXPEDITED_BLOCKS : Z := 2.
Definition EXPEDITED_TXNS : Z := 4.

Definition EXPEDITED_MSG_HDR : Z := 1.
Definition EXPEDITED_MSG_XTHIN : Z := 2.

(** A C++ integer used as a condition: true iff it is not zero. *)
Definition truthy (z : Z) : bool := negb (z =? 0).

(** ** parallel.h: CScriptCheck *)

Module ScriptCheck.

(** [CScript] is a vector of bytes. *)
Definition CScript := list Byte.byte.

(** Modelled from the spec: [CTxOut], [COutPoint], [CTxIn], [CTransaction]
    and [CCoins] are declared in [primitives/transaction.h] and [coins.h],
    which are not among the sources.  The spec's verification unit is built
    from the "previous output's locking script resolved via its outpoint,
    spending transaction, input index": outputs carry a script, inputs carry
    the outpoint they spend, and the constructor's member accesses give the
    field names. *)
Record CTxOut := { nValue : Z; scriptPubKey_out : CScript }.
Record COutPoint := { hash : Z; n : N }.
Record CTxIn := { prevout : COutPoint; scriptSig : CScript; nSequence : N }.
Record CTransaction := { vin : list CTxIn; tx_vout : list CTxOut }.
Record CCoins := { vout : list CTxOut }.

Section closure.

(** [ScriptError] is an enumeration of [script/script_error.h]; only its
    value [SCRIPT_ERR_UNKNOWN_ERROR] is named by [parallel.h]. *)
Context {ScriptError : Type}.
Variable SCRIPT_ERR_UNKNOWN_ERROR : ScriptError.

Record CScriptCheck := mkCScriptCheck {
  scriptPubKey : CScript;
  ptxTo : ptr;
  nIn : N;
  nFlags : N;
  cacheStore : bool;
  error : ScriptError
}.

(** [CScriptCheck()] *)
Definition CScriptCheck_default : CScriptCheck :=
  {| scriptPubKey := []; ptxTo := nullptr; nIn := 0%N; nFlags := 0%N;
     cacheStore := false; error := SCRIPT_ERR_UNKNOWN_ERROR |}.

(** [CScriptCheck(txFromIn, txToIn, nInIn, nFlagsIn, cacheIn)].  The two
    [operator[]] accesses are unchecked: an index past the end of the vector
    has no defined result, which is [None] here. *)
Definition CScriptCheck_ctor (txFromIn : CCoins) (txToIn : cref CTransaction)
    (nInIn nFlagsIn : N) (cacheIn : bool) : option CScriptCheck :=
  txin ← vin (deref txToIn) !! N.to_nat nInIn;
  txout ← vout txFromIn !! N.to_nat (n (prevout txin));
  Some {| scriptPubKey := scriptPubKey_out txout;
          ptxTo := addr_of txToIn;
          nIn := nInIn;
          nFlags := nFlagsIn;
          cacheStore := cacheIn;
          error := SCRIPT_ERR_UNKNOWN_ERROR |}.

Definition GetScriptError (c : CScriptCheck) : ScriptError := error c.

(** The indices the constructor uses are inside their vectors. *)
Definition ctor_in_bounds (txFromIn : CCoins) (txToIn : cref CTransaction)
    (nInIn : N) : Prop :=
  ∃ txin, vin (deref txToIn) !! N.to_nat nInIn = Some txin
          ∧ (N.to_nat (n (prevout txin)) < length (vout txFromIn))%nat.

(** Field assignment. *)
Definition set_scriptPubKey (v : CScript) (c : CScriptCheck) :=
  mkCScriptCheck v (ptxTo c) (nIn c) (nFlags c) (cacheStore c) (error c).
Definition set_ptxTo (v : ptr) (c : CScriptCheck) :=
  mkCScriptCheck (scriptPubKey c) v (nIn c) (nFlags c) (cacheStore c) (error c).
Definition set_nIn (v : N) (c : CScriptCheck) :=
  mkCScriptCheck (scriptPubKey c) (ptxTo c) v (nFlags c) (cacheStore c) (error c).
Definition set_nFlags (v : N) (c : CScriptCheck) :=
  mkCScriptCheck (scriptPubKey c) (ptxTo c) (nIn c) v (cacheStore c) (error c).
Definition set_cacheStore (v : bool) (c : CScriptCheck) :=
  mkCScriptCheck (scriptPubKey c) (ptxTo c) (nIn c) (nFlags c) v (error c).
Definition set_error (v : ScriptError) (c : CScriptCheck) :=
  mkCScriptCheck (scriptPubKey c) (ptxTo c) (nIn c) (nFlags c) (cacheStore c) v.

(** The closures live in a store indexed by address; [a.swap(b)] receives the
    addresses of [a] and [b], which may be the same object. *)
Abbreviation store := (gmap ptr CScriptCheck).

(** [std::swap(x.f, y.f)] on field [f]: [tmp = x.f; x.f = y.f; y.f = tmp].  A
    reference to an object that is not in the store has no defined result. *)
Definition std_swap {T : Type} (get : CScriptCheck → T)
    (set : T → CScriptCheck → CScriptCheck) (x y : ptr) (h : store) : option store :=
  cx ← h !! x;
  let tmp := get cx in
  cy ← h !! y;
  let h1 := <[x := set (get cy) cx]> h in
  cy' ← h1 !! y;
  Some (<[y := set tmp cy']> h1).

(** The laws of a field and its assignment that [std_swap] relies on. *)
Definition field_laws {T : Type} (get : CScriptCheck → T)
    (set : T → CScriptCheck → CScriptCheck) : Prop :=
  (∀ c, set (get c) c = c)
  ∧ (∀ u v c, set v (set u c) = set v c)
  ∧ (∀ v c, get (set v c) = v).

(** [void swap(CScriptCheck &check)], called on the object at [this]. *)
Definition swap (this check : ptr) (h : store) : option store :=
  h ← std_swap scriptPubKey set_scriptPubKey this check h;
  h ← std_swap ptxTo set_ptxTo this check h;
  h ← std_swap nIn set_nIn this check h;
  h ← std_swap nFlags set_nFlags this check h;
  h ← std_swap cacheStore set_cacheStore this check h;
  std_swap error set_error this check h.

End closure.

End ScriptCheck.

(** ** parallel.h: CAllScriptCheckQueues *)

Module ScriptCheckQueues.

(** The object holds a vector of pointers to check queues (and a lock). *)
Record CAllScriptCheckQueues := { vScriptCheckQueues : list ptr }.

(** [CAllScriptCheckQueues()] *)
Definition CAllScriptCheckQueues_ctor : CAllScriptCheckQueues :=
  {| vScriptCheckQueues := [] |}.

(** [void Add(CCheckQueue<CScriptCheck>* pqueueIn)]: [push_back]. *)
Definition Add (pqueueIn : ptr) (q : CAllScriptCheckQueues) : CAllScriptCheckQueues :=
  {| vScriptCheckQueues := vScriptCheckQueues q ++ [pqueueIn] |}.

(** Conversion of a [size_t] to [uint8_t]. *)
Definition to_uint8 (z : Z) : Z := z mod 2 ^ 8.

(** [uint8_t Size()]: the vector's size, converted to the return type. *)
Definition Size (q : CAllScriptCheckQueues) : Z :=
  to_uint8 (Z.of_nat (length (vScriptCheckQueues q))).

(** A run of [Add] calls, one per element, in order. *)
Definition add_all (qs : list ptr) (q : CAllScriptCheckQueues) : CAllScriptCheckQueues :=
  foldl (λ acc pqueueIn, Add pqueueIn acc) q qs.

End ScriptCheckQueues.

(** ** parallel.h: CParallelValidation *)

Module ParallelValidation.

(** [boost::thread::id] *)
Definition thread_id := N.

Record CHandleBlockMsgThreads := {
  tRef : ptr;
  pScriptQueue : ptr;
  hash : Z;
  hashPrevBlock : Z;
  nSequenceId : Z;
  nStartTime : Z;
  nBlockSize : Z;
  fQuit : bool
}.

Definition set_fQuit (b : bool) (s : CHandleBlockMsgThreads) : CHandleBlockMsgThreads :=
  {| tRef := tRef s; pScriptQueue := pScriptQueue s; hash := hash s;
     hashPrevBlock := hashPrevBlock s; nSequenceId := nSequenceId s;
     nStartTime := nStartTime s; nBlockSize := nBlockSize s; fQuit := b |}.

(** [mapBlockValidationThreads] *)
Abbreviation sessions := (gmap thread_id CHandleBlockMsgThreads).

(** Modelled from the spec: the body of
    [CParallelValidation::StopAllValidationThreads(this_id)] is in
    [parallel.cpp], which is not among the sources.  The spec: it "sets
    fQuit=true for every active session EXCEPT the one belonging to
    thread_id". *)
Definition StopAllValidationThreads_except (this_id : thread_id) (m : sessions) : sessions :=
  map_imap (λ id s, Some (if decide (id = this_id) then s else set_fQuit true s)) m.

(** Modelled from the spec: the body of
    [CParallelValidation::StopAllValidationThreads()] is missing as well.
    The spec: it "sets fQuit=true for every active session". *)
Definition StopAllValidationThreads (m : sessions) : sessions :=
  set_fQuit true <$> m.

(** Modelled from the spec: the body of [CParallelValidation::QuitReceived]
    is missing.  The spec: "read fQuit for this thread under the lock", and
    "QuitReceived for a thread never admitted returns false". *)
Definition QuitReceived (this_id : thread_id) (m : sessions) : bool :=
  match m !! this_id with
  | Some s => fQuit s
  | None => false
  end.

(** A session as the spec says [Initialize] records it: [fQuit=false]. *)
Definition fresh_session (q : ptr) (h hprev seq now size : Z) : CHandleBlockMsgThreads :=
  {| tRef := nullptr; pScriptQueue := q; hash := h; hashPrevBlock := hprev;
     nSequenceId := seq; nStartTime := now; nBlockSize := size; fQuit := false |}.

End ParallelValidation.

(** ** connmgr.cpp: CConnMgr *)

Module ConnMgr.

Definition CNode_ptr := ptr.

(** Modelled from the spec: the [NetMsgType] constants are declared in
    [protocol.h], which is not among the sources; the one this file sends is
    the spec's "expedited request message carrying a flags bitmask". *)
Inductive NetMsgType := XPEDITEDREQUEST.

(** Modelled from the spec: [CNode] is declared in [net.h], which is not
    among the sources.  The spec's peer collaborator "exposes
    send_message(type, payload), ..., supports_thin_blocks() -> bool, ...,
    and strengthen/weaken reference operations": a reference count per peer,
    the answer of [ThinBlockCapable()], and the messages pushed to the peer,
    oldest first.  Every [CNode_ptr] handed to the registry designates a
    peer. *)
Record Peers := mkPeers {
  nRefCount : CNode_ptr → Z;
  fThinBlockCapable : CNode_ptr → bool;
  vSendMsg : CNode_ptr → list (NetMsgType * Z)
}.

(** Modelled from the spec: [CNode::AddRef], the peer's "strengthen"
    operation. *)
Definition AddRef (pnode : CNode_ptr) (P : Peers) : Peers :=
  mkPeers (<[pnode := nRefCount P pnode + 1]> (nRefCount P))
          (fThinBlockCapable P) (vSendMsg P).

(** Modelled from the spec: [CNode::Release], the peer's "weaken"
    operation. *)
Definition Release (pnode : CNode_ptr) (P : Peers) : Peers :=
  mkPeers (<[pnode := nRefCount P pnode - 1]> (nRefCount P))
          (fThinBlockCapable P) (vSendMsg P).

(** Modelled from the spec: [CNode::ThinBlockCapable], the peer's
    "supports_thin_blocks() -> bool". *)
Definition ThinBlockCapable (pnode : CNode_ptr) (P : Peers) : bool :=
  fThinBlockCapable P pnode.

(** Modelled from the spec: [CNode::PushMessage], the peer's
    "send_message(type, payload)". *)
Definition PushMessage (pnode : CNode_ptr) (cmd : NetMsgType) (payload : Z)
    (P : Peers) : Peers :=
  mkPeers (nRefCount P) (fThinBlockCapable P)
          (<[pnode := vSendMsg P pnode ++ [(cmd, payload)]]> (vSendMsg P)).

(** The registry object.  Its declaration is in [connmgr.h], which is not
    among the sources; the fields are those the constructor initialises, the
    two maxima are 32-bit unsigned counters, and [NodeId] is [int]. *)
Record CConnMgr := mkCConnMgr {
  vSendExpeditedBlocks : list CNode_ptr;
  vSendExpeditedTxs : list CNode_ptr;
  vExpeditedUpstream : list CNode_ptr;
  nExpeditedBlocksMax : nat;
  nExpeditedTxsMax : nat;
  next : Z
}.

(** What the member functions read and write: the registry, the peers, and
    the value [IsThinBlocksEnabled()] returns (a configuration setting). *)
Record World := mkWorld {
  connmgr : CConnMgr;
  peers : Peers;
  fThinBlocksEnabled : bool
}.

(** Modelled from the spec: [IsThinBlocksEnabled()] is defined in
    [thinblock.cpp], which is not among the sources; it reads the
    configuration input "global enable/disable ... of thin-block support". *)
Definition IsThinBlocksEnabled (w : World) : bool := fThinBlocksEnabled w.

(** Modelled from the spec: [error(...)] is a logging helper of [util.h];
    the spec calls its use "a logged failure return": it logs and returns
    [false]. *)
Definition error : bool := false.

(** Assignment to one of the three vectors, together with the peers. *)
Definition set_blocks (vp : list CNode_ptr * Peers) (w : World) : World :=
  let m := connmgr w in
  mkWorld (mkCConnMgr vp.1 (vSendExpeditedTxs m) (vExpeditedUpstream m)
                      (nExpeditedBlocksMax m) (nExpeditedTxsMax m) (next m))
          vp.2 (fThinBlocksEnabled w).

Definition set_txs (vp : list CNode_ptr * Peers) (w : World) : World :=
  let m := connmgr w in
  mkWorld (mkCConnMgr (vSendExpeditedBlocks m) vp.1 (vExpeditedUpstream m)
                      (nExpeditedBlocksMax m) (nExpeditedTxsMax m) (next m))
          vp.2 (fThinBlocksEnabled w).

Definition set_upstream (vp : list CNode_ptr * Peers) (w : World) : World :=
  let m := connmgr w in
  mkWorld (mkCConnMgr (vSendExpeditedBlocks m) (vSendExpeditedTxs m) vp.1
                      (nExpeditedBlocksMax m) (nExpeditedTxsMax m) (next m))
          vp.2 (fThinBlocksEnabled w).

Definition blocks (w : World) := vSendExpeditedBlocks (connmgr w).
Definition txs (w : World) := vSendExpeditedTxs (connmgr w).
Definition upstream (w : World) := vExpeditedUpstream (connmgr w).

(** [FindNode]: [std::find].  An iterator is the index it points at;
    [vNodes.end()] is the length of the vector. *)
Fixpoint FindNode (vNodes : list CNode_ptr) (pnode : CNode_ptr) : nat :=
  match vNodes with
  | [] => 0%nat
  | x :: rest => if decide (x = pnode) then 0%nat else S (FindNode rest pnode)
  end.

Definition vend (vNodes : list CNode_ptr) : nat := length vNodes.

(** [AddNode]: take a reference, then [push_back]. *)
Definition AddNode (vNodes : list CNode_ptr) (pnode : CNode_ptr) (P : Peers)
    : list CNode_ptr * Peers :=
  let P := AddRef pnode P in
  (vNodes ++ [pnode], P).

(** [RemoveNode]: erase the element [FindNode] points at, if any. *)
Definition RemoveNode (vNodes : list CNode_ptr) (pnode : CNode_ptr) (P : Peers)
    : bool * (list CNode_ptr * Peers) :=
  let Node := FindNode vNodes pnode in
  if decide (Node ≠ vend vNodes) then
    let P := Release pnode P in
    (true, (delete Node vNodes, P))
  else (false, (vNodes, P)).

(** [CConnMgr::CConnMgr()] *)
Definition CConnMgr_ctor : CConnMgr :=
  {| vSendExpeditedBlocks := []; vSendExpeditedTxs := []; vExpeditedUpstream := [];
     nExpeditedBlocksMax := 32; nExpeditedTxsMax := 32; next := 0 |}.

(** Conversion to [int], two's complement. *)
Definition to_int32 (z : Z) : Z := (z + 2 ^ 31) mod 2 ^ 32 - 2 ^ 31.

(** [CConnMgr::NextNodeId]: the atomic pre-increment. *)
Definition NextNodeId (w : World) : Z * World :=
  let m := connmgr w in
  let id := to_int32 (next m + 1) in
  (id, mkWorld (mkCConnMgr (vSendExpeditedBlocks m) (vSendExpeditedTxs m)
                           (vExpeditedUpstream m) (nExpeditedBlocksMax m)
                           (nExpeditedTxsMax m) id)
               (peers w) (fThinBlocksEnabled w)).

(** [CConnMgr::EnableExpeditedSends] *)
Definition EnableExpeditedSends (pnode : CNode_ptr) (fBlocks fTxs fForceIfFull : bool)
    (w : World) : World :=
  let w :=
    if fBlocks && bool_decide (FindNode (blocks w) pnode = vend (blocks w)) then
      if fForceIfFull
         || bool_decide (length (blocks w) < nExpeditedBlocksMax (connmgr w))%nat
      then set_blocks (AddNode (blocks w) pnode (peers w)) w
      else w
    else w in
  if fTxs && bool_decide (FindNode (txs w) pnode = vend (txs w)) then
    if fForceIfFull
       || bool_decide (length (txs w) < nExpeditedTxsMax (connmgr w))%nat
    then set_txs (AddNode (txs w) pnode (peers w)) w
    else w
  else w.

(** [CConnMgr::DisableExpeditedSends] *)
Definition DisableExpeditedSends (pnode : CNode_ptr) (fBlocks fTxs : bool)
    (w : World) : World :=
  let w := if fBlocks then set_blocks (RemoveNode (blocks w) pnode (peers w)).2 w else w in
  if fTxs then set_txs (RemoveNode (txs w) pnode (peers w)).2 w else w.

(** Conversion of a [size_t] to [uint32_t]. *)
Definition to_uint32 (z : Z) : Z := z mod 2 ^ 32.

(** [nMax = GetArg(name, nMax)]: [GetArg] reads the configuration; it takes
    the member, widened to a signed 64-bit default, and returns a signed
    64-bit number, which the assignment converts to the [uint32_t] member. *)
Definition configured_max (GetArg : string → Z → Z) (name : string) (nMax : nat)
    : nat :=
  Z.to_nat (to_uint32 (GetArg name (Z.of_nat nMax))).

(** [CConnMgr::HandleCommandLine] *)
Definition HandleCommandLine (GetArg : string → Z → Z) (w : World) : World :=
  let m := connmgr w in
  let nB := configured_max GetArg "-maxexpeditedblockrecipients" (nExpeditedBlocksMax m) in
  let nT := configured_max GetArg "-maxexpeditedtxrecipients" (nExpeditedTxsMax m) in
  mkWorld (mkCConnMgr (vSendExpeditedBlocks m) (vSendExpeditedTxs m)
                      (vExpeditedUpstream m) nB nT (next m))
          (peers w) (fThinBlocksEnabled w).

(** [CConnMgr::RemovedNode] *)
Definition RemovedNode (pnode : CNode_ptr) (w : World) : World :=
  let w := set_blocks (RemoveNode (blocks w) pnode (peers w)).2 w in
  let w := set_txs (RemoveNode (txs w) pnode (peers w)).2 w in
  set_upstream (RemoveNode (upstream w) pnode (peers w)).2 w.

(** [CConnMgr::ExpeditedNodeCounts]: the three output parameters. *)
Definition ExpeditedNodeCounts (w : World) : Z * Z * Z :=
  (to_uint32 (Z.of_nat (length (blocks w))),
   to_uint32 (Z.of_nat (length (txs w))),
   to_uint32 (Z.of_nat (length (upstream w)))).

(** [CConnMgr::ExpeditedBlockNodes]: a copy of the upstream vector, one
    [CNodeRef] per entry.  [CNodeRef] is declared in [net.h], which is not
    among the sources; modelled from the spec, whose snapshot has "each
    reference individually strengthened (ref-counted)": building a [CNodeRef]
    takes one reference on its peer. *)
Definition ExpeditedBlockNodes (w : World) : list CNode_ptr * World :=
  let P := foldl (λ P pnode, AddRef pnode P) (peers w) (upstream w) in
  (upstream w, mkWorld (connmgr w) P (fThinBlocksEnabled w)).

(** [CConnMgr::PushExpeditedRequest] *)
Definition PushExpeditedRequest (pnode : CNode_ptr) (flags : Z) (w : World)
    : bool * World :=
  if negb (IsThinBlocksEnabled w) then (error, w)
  else if negb (ThinBlockCapable pnode (peers w)) then (error, w)
  else
    let w :=
      if truthy (Z.land flags EXPEDITED_BLOCKS) then
        if truthy (Z.land flags EXPEDITED_STOP) then
          set_upstream (RemoveNode (upstream w) pnode (peers w)).2 w
        else
          if bool_decide (FindNode (upstream w) pnode = vend (upstream w)) then
            set_upstream (AddNode (upstream w) pnode (peers w)) w
          else w
      else w in
    let w := mkWorld (connmgr w) (PushMessage pnode XPEDITEDREQUEST flags (peers w))
                     (fThinBlocksEnabled w) in
    (true, w).

(** [CConnMgr::IsExpeditedUpstream] *)
Definition IsExpeditedUpstream (pnode : CNode_ptr) (w : World) : bool :=
  bool_decide (FindNode (upstream w) pnode ≠ vend (upstream w)).

(** Calls into the registry, and what the rest of the node does to the peers
    and to the configuration between calls. *)
Inductive Op :=
| OpEnable (pnode : CNode_ptr) (fBlocks fTxs fForceIfFull : bool)
| OpDisable (pnode : CNode_ptr) (fBlocks fTxs : bool)
| OpRemoved (pnode : CNode_ptr)
| OpPush (pnode : CNode_ptr) (flags : Z)
| OpCommandLine (GetArg : string → Z → Z)
| OpNextNodeId
| OpBlockNodes
| OpEnvironment (P : Peers) (fThin : bool).

Definition step (w : World) (o : Op) : World :=
  match o with
  | OpEnable p fB fT fF => EnableExpeditedSends p fB fT fF w
  | OpDisable p fB fT => DisableExpeditedSends p fB fT w
  | OpRemoved p => RemovedNode p w
  | OpPush p flags => (PushExpeditedRequest p flags w).2
  | OpCommandLine GetArg => HandleCommandLine GetArg w
  | OpNextNodeId => (NextNodeId w).2
  | OpBlockNodes => (ExpeditedBlockNodes w).2
  | OpEnvironment P fThin => mkWorld (connmgr w) P fThin
  end.

Definition run (ops : list Op) (w : World) : World := foldl step w ops.

(** The world right after the registry is constructed. *)
Definition initial (P : Peers) (fThin : bool) : World :=
  mkWorld CConnMgr_ctor P fThin.

Inductive reachable : World → Prop :=
| reach_initial P fThin : reachable (initial P fThin)
| reach_step w o : reachable w → reachable (step w o).

(** Whether a call could put [p] into one of the vectors. *)
Definition may_add (p : CNode_ptr) (o : Op) : bool :=
  match o with
  | OpEnable q _ _ _ => bool_decide (q = p)
  | OpPush q _ => bool_decide (q = p)
  | _ => false
  end.

(** Classification of calls, for counting enables and disables. *)
Definition is_fanout_call (o : Op) : bool :=
  match o with OpEnable _ _ _ _ | OpDisable _ _ _ => true | _ => false end.
Definition is_forced (o : Op) : bool :=
  match o with OpEnable _ _ _ fF => fF | _ => false end.
Definition enables_blocks (o : Op) : bool :=
  match o with OpEnable _ fB _ _ => fB | _ => false end.
Definition enables_txs (o : Op) : bool :=
  match o with OpEnable _ _ fT _ => fT | _ => false end.
Definition disables_blocks (o : Op) : bool :=
  match o with OpDisable _ fB _ => fB | _ => false end.
Definition disables_txs (o : Op) : bool :=
  match o with OpDisable _ _ fT => fT | _ => false end.

Fixpoint count_calls (f : Op → bool) (ops : list Op) : Z :=
  match ops with
  | [] => 0
  | o :: rest => (if f o then 1 else 0) + count_calls f rest
  end.

(** A call changes every vector it names: an enable names a peer that is
    not in the vector while the vector has room (or the call is forced), a
    disable names a peer that is in the vector. *)
Definition call_effective (w : World) (o : Op) : Prop :=
  match o with
  | OpEnable p fB fT fF =>
      (fB = true →
       (p ∉ blocks w)
       ∧ (fF = true ∨ (length (blocks w) < nExpeditedBlocksMax (connmgr w))%nat))
      ∧ (fT = true →
         (p ∉ txs w)
         ∧ (fF = true ∨ (length (txs w) < nExpeditedTxsMax (connmgr w))%nat))
  | OpDisable p fB fT => (fB = true → p ∈ blocks w) ∧ (fT = true → p ∈ txs w)
  | _ => True
  end.

Fixpoint all_effective (w : World) (ops : list Op) : Prop :=
  match ops with
  | [] => True
  | o :: rest => call_effective w o ∧ all_effective (step w o) rest
  end.

(** The data-model invariant: no peer twice in a vector. *)
Definition registry_inv (w : World) : Prop :=
  NoDup (blocks w) ∧ NoDup (txs w) ∧ NoDup (upstream w).

(** Peers that answer as in the simplest network: nothing referenced,
    nothing sent, every peer thin-block capable. *)
Definition quiet_peers : Peers := mkPeers (λ _, 0) (λ _, true) (λ _, []).

(** [CConnMgr::FindNodeFromId].  The node list [vNodes] is a global of
    [net.cpp] and [GetId] reads a node's id; both are taken as arguments. *)
Fixpoint FindNodeFromId (vNodes : list CNode_ptr) (GetId : CNode_ptr → Z) (id : Z)
    : CNode_ptr :=
  match vNodes with
  | [] => nullptr
  | pnode :: rest =>
      if decide (GetId pnode = id) then pnode else FindNodeFromId rest GetId id
  end.

(** [k] calls of [NextNodeId] in a row: the ids returned, oldest first. *)
Fixpoint NextNodeId_calls (k : nat) (w : World) : list Z * World :=
  match k with
  | O => ([], w)
  | S k' =>
      let r := NextNodeId w in
      let rs := NextNodeId_calls k' r.2 in
      (r.1 :: rs.1, rs.2)
  end.

(** How often a peer is stored in a vector, and in the three vectors. *)
Definition occurrences (q : CNode_ptr) (l : list CNode_ptr) : Z :=
  Z.of_nat (length (filter (λ x, x = q) l)).

Definition references_held (q : CNode_ptr) (w : World) : Z :=
  occurrences q (blocks w) + occurrences q (txs w) + occurrences q (upstream w).

(** Calls of the registry that keep no reference outside the vectors. *)
Definition is_member_call (o : Op) : bool :=
  match o with OpBlockNodes | OpEnvironment _ _ => false | _ => true end.

(** Calls made by the registry itself, not by the rest of the node. *)
Definition is_registry_call (o : Op) : bool :=
  match o with OpEnvironment _ _ => false | _ => true end.

(** Calls that neither force an enable nor reconfigure the maxima. *)
Definition keeps_capacity (o : Op) : bool :=
  match o with
  | OpEnable _ _ _ fF => negb fF
  | OpCommandLine _ => false
  | _ => true
  end.

(** The expedited requests a sequence of calls addresses to peer [q]. *)
Fixpoint requests_to (q : CNode_ptr) (ops : list Op) : list (NetMsgType * Z) :=
  match ops with
  | [] => []
  | OpPush p flags :: rest =>
      if decide (p = q) then (XPEDITEDREQUEST, flags) :: requests_to q rest
      else requests_to q rest
  | _ :: rest => requests_to q rest
  end.

End ConnMgr.

(** ** Concrete data *)

(** A transaction with one input that spends output 1 of a two-output coin. *)
Definition sample_coins : ScriptCheck.CCoins :=
  ScriptCheck.Build_CCoins
    [ScriptCheck.Build_CTxOut 50 [Byte.x51];
     ScriptCheck.Build_CTxOut 25 [Byte.x76; Byte.xa9]].

Definition sample_tx : cref ScriptCheck.CTransaction :=
  mk_cref 4096%N
    (ScriptCheck.Build_CTransaction
       [ScriptCheck.Build_CTxIn (ScriptCheck.Build_COutPoint 7 1) [] 0%N] []).

Definition sample_check_a : @ScriptCheck.CScriptCheck Z :=
  ScriptCheck.mkCScriptCheck [Byte.x51] 4096%N 0%N 3%N true 0.

Definition sample_check_b : @ScriptCheck.CScriptCheck Z :=
  ScriptCheck.mkCScriptCheck [Byte.x76; Byte.xa9] 8192%N 1%N 5%N false 1.

Definition sample_store : gmap ptr (@ScriptCheck.CScriptCheck Z) :=
  <[1%N := sample_check_a]> (<[2%N := sample_check_b]> ∅).

(** Two sessions as [Initialize] records them, for threads 1 and 2. *)
Definition two_sessions : gmap ParallelValidation.thread_id
                               ParallelValidation.CHandleBlockMsgThreads :=
  <[1%N := ParallelValidation.fresh_session 64%N 100 99 1 1000 500]>
    (<[2%N := ParallelValidation.fresh_session 128%N 105 99 2 1001 600]> ∅).

(** A new registry among capable peers, thin blocks enabled or not. *)
Definition sample_world : ConnMgr.World := ConnMgr.initial ConnMgr.quiet_peers true.
Definition thin_disabled_world : ConnMgr.World :=
  ConnMgr.initial ConnMgr.quiet_peers false.

(** The peers [1 .. k], and one enable call for blocks and txs per peer. *)
Definition distinct_peers (k : nat) : list ConnMgr.CNode_ptr := N.of_nat <$> seq 1 k.
Definition enable_all (fForceIfFull : bool) (ps : list ConnMgr.CNode_ptr)
    : list ConnMgr.Op :=
  (λ p, ConnMgr.OpEnable p true true fForceIfFull) <$> ps.

(** The registry after 32 peers asked for expedited blocks and txs. *)
Definition full_world : ConnMgr.World :=
  ConnMgr.run (enable_all false (distinct_peers 32)) sample_world.

(** Peer 7 is an upstream source. *)
Definition upstream_world : ConnMgr.World :=
  (ConnMgr.PushExpeditedRequest 7%N EXPEDITED_BLOCKS sample_world).2.

(** A blocks vector that holds peer 5 twice.  No call sequence produces
    it; it shows what the invariant is needed for. *)
Definition duplicated_world : ConnMgr.World :=
  ConnMgr.mkWorld (ConnMgr.mkCConnMgr [5%N; 5%N] [] [] 32 32 0)
                  ConnMgr.quiet_peers true.

(** A day in the life of peer 1: enabled, asked twice for expedited blocks,
    an id allocated in between, disabled for blocks, then disconnected. *)
Definition sample_calls : list ConnMgr.Op :=
  [ConnMgr.OpEnable 1%N true true false;
   ConnMgr.OpPush 1%N EXPEDITED_BLOCKS;
   ConnMgr.OpNextNodeId;
   ConnMgr.OpPush 1%N (Z.lor EXPEDITED_BLOCKS EXPEDITED_TXNS);
   ConnMgr.OpDisable 1%N true false;
   ConnMgr.OpRemoved 1%N].

(** Three nodes at addresses 16, 32 and 48 with the ids 1, 2 and 3. *)
Definition sample_nodes : list ConnMgr.CNode_ptr := [16%N; 32%N; 48%N].
Definition sample_GetId (pnode : ConnMgr.CNode_ptr) : Z := Z.of_N pnode / 16.

(** A configuration whose two entries are 4294967297, one more than 2^32. *)
Definition sample_GetArg (name : string) (nDefault : Z) : Z := 4294967297.

(** Peer 1 enabled and then disabled, for blocks and txs. *)
Definition enable_then_disable : list ConnMgr.Op :=
  [ConnMgr.OpEnable 1%N true true false; ConnMgr.OpDisable 1%N true true].

(** * Properties *)

(** ** CScriptCheck *)

Section script_check_facts.

Import ScriptCheck.

Context {ScriptError : Type}.
Variable UNKNOWN : ScriptError.

Abbreviation check := (@CScriptCheck ScriptError).
Abbreviation store := (gmap ptr check).

Ltac field_laws_tac :=
  repeat split; intros; repeat match goal with c : check |- _ => destruct c end;
  reflexivity.

Lemma swap_same_object {T : Type} (get : check → T) set (x : ptr) (h : store) cx :
  field_laws get set →
  h !! x = Some cx →
  std_swap get set x x h = Some h.
Proof.
  intros (Hgs & _ & _) Hx. unfold std_swap.
  rewrite Hx. simpl. rewrite lookup_insert_eq. simpl.
  rewrite !Hgs, insert_insert_eq. by rewrite insert_id.
Qed.

Lemma swap_two_objects {T : Type} (get : check → T) set (x y : ptr) (h : store) cx cy :
  x ≠ y →
  std_swap get set x y (<[x := cx]> (<[y := cy]> h))
  = Some (<[x := set (get cy) cx]> (<[y := set (get cx) cy]> h)).
Proof.
  intros Hxy. unfold std_swap.
  rewrite lookup_insert_eq. simpl.
  rewrite lookup_insert_ne, lookup_insert_eq by done. simpl.
  rewrite lookup_insert_ne, lookup_insert_ne, lookup_insert_eq by done. simpl.
  f_equal. rewrite insert_insert_eq.
  rewrite (insert_insert_ne _ y x) by done.
  by rewrite insert_insert_eq.
Qed.

Lemma swap_same (x : ptr) (h : store) cx :
  h !! x = Some cx → swap x x h = Some h.
Proof.
  intros Hx. unfold swap.
  repeat (erewrite swap_same_object; [simpl | field_laws_tac | exact Hx]).
  reflexivity.
Qed.

Lemma swap_distinct (x y : ptr) (h : store) (cx cy : check) :
  x ≠ y →
  swap x y (<[x := cx]> (<[y := cy]> h)) = Some (<[x := cy]> (<[y := cx]> h)).
Proof.
  intros Hxy. unfold swap.
  repeat (rewrite swap_two_objects by done; simpl).
  by destruct cx, cy.
Qed.

(** C8: [a.swap(b)] exchanges the six fields of the two closures, leaves
    every other closure alone, and a second [a.swap(b)] restores both. *)
Theorem CScriptCheck_swap_exchanges (h : store) (a b : ptr) (ca cb : check) :
  h !! a = Some ca →
  h !! b = Some cb →
  ∃ h', swap a b h = Some h'
        ∧ h' !! a = Some cb
        ∧ h' !! b = Some ca
        ∧ (∀ c, c ≠ a → c ≠ b → h' !! c = h !! c)
        ∧ swap a b h' = Some h.
Proof.
  intros Ha Hb. destruct (decide (a = b)) as [->|Hab].
  - exists h. rewrite (swap_same b h ca Ha).
    repeat split; congruence.
  - assert (Hh : h = <[a := ca]> (<[b := cb]> h)).
    { rewrite (insert_id h b cb Hb). by rewrite insert_id. }
    exists (<[a := cb]> (<[b := ca]> h)).
    split; [by rewrite Hh at 1; apply swap_distinct|].
    split; [by rewrite lookup_insert_eq|].
    split; [by rewrite lookup_insert_ne, lookup_insert_eq|].
    split; [by intros c Hca Hcb; rewrite !lookup_insert_ne|].
    rewrite swap_distinct by done. f_equal. symmetry. exact Hh.
Qed.

(** C10: the constructor has a defined result exactly when both indices are
    in range, and then it stores the referenced output's script and
    [SCRIPT_ERR_UNKNOWN_ERROR], next to its other arguments. *)
Theorem CScriptCheck_ctor_in_bounds (txFromIn : CCoins) (txToIn : cref CTransaction)
    (nInIn nFlagsIn : N) (cacheIn : bool) :
  (is_Some (CScriptCheck_ctor UNKNOWN txFromIn txToIn nInIn nFlagsIn cacheIn)
   ↔ ctor_in_bounds txFromIn txToIn nInIn)
  ∧ (∀ txin txout,
       vin (deref txToIn) !! N.to_nat nInIn = Some txin →
       vout txFromIn !! N.to_nat (n (prevout txin)) = Some txout →
       CScriptCheck_ctor UNKNOWN txFromIn txToIn nInIn nFlagsIn cacheIn
       = Some (mkCScriptCheck (scriptPubKey_out txout) (addr_of txToIn)
                              nInIn nFlagsIn cacheIn UNKNOWN)).
Proof.
  unfold CScriptCheck_ctor, ctor_in_bounds. split.
  - split.
    + intros [c Hc].
      destruct (vin (deref txToIn) !! N.to_nat nInIn) as [txin|] eqn:Hin;
        simpl in Hc; [|discriminate].
      exists txin. split; [done|].
      destruct (vout txFromIn !! N.to_nat (n (prevout txin))) as [txout|] eqn:Hout;
        simpl in Hc; [|discriminate].
      eapply lookup_lt_Some, Hout.
    + intros (txin & Hin & Hlt). rewrite Hin. simpl.
      destruct (lookup_lt_is_Some_2 _ _ Hlt) as [txout Hout].
      rewrite Hout. simpl. eauto.
  - intros txin txout Hin Hout. rewrite Hin. simpl. by rewrite Hout.
Qed.

End script_check_facts.

Lemma CScriptCheck_swap_exchanges_witness :
  ∃ h', ScriptCheck.swap 1%N 2%N sample_store = Some h'
        ∧ h' !! 1%N = Some sample_check_b
        ∧ h' !! 2%N = Some sample_check_a
        ∧ (∀ c, c ≠ 1%N → c ≠ 2%N → h' !! c = sample_store !! c)
        ∧ ScriptCheck.swap 1%N 2%N h' = Some sample_store.
Proof.
  apply (CScriptCheck_swap_exchanges sample_store 1%N 2%N
           sample_check_a sample_check_b); reflexivity.
Defined.

Lemma CScriptCheck_ctor_in_bounds_witness :
  ScriptCheck.ctor_in_bounds sample_coins sample_tx 0%N
  ∧ ScriptCheck.CScriptCheck_ctor 1 sample_coins sample_tx 0%N 3%N true
    = Some (ScriptCheck.mkCScriptCheck [Byte.x76; Byte.xa9] 4096%N 0%N 3%N true 1).
Proof.
  destruct (CScriptCheck_ctor_in_bounds 1 sample_coins sample_tx 0%N 3%N true)
    as [Hdef Hval].
  split.
  - apply Hdef. vm_compute. eauto.
  - apply (Hval (ScriptCheck.Build_CTxIn (ScriptCheck.Build_COutPoint 7 1) [] 0%N)
                (ScriptCheck.Build_CTxOut 25 [Byte.x76; Byte.xa9])); reflexivity.
Defined.

(** ** CAllScriptCheckQueues *)

Section queue_facts.

Import ScriptCheckQueues.

Lemma add_all_vector (qs : list ptr) (q : CAllScriptCheckQueues) :
  vScriptCheckQueues (add_all qs q) = vScriptCheckQueues q ++ qs.
Proof.
  revert q. induction qs as [|x qs IH]; intros q.
  - simpl. by rewrite app_nil_r.
  - change (add_all (x :: qs) q) with (add_all qs (Add x q)).
    rewrite IH. simpl. by rewrite <- app_assoc.
Qed.

Lemma to_uint8_range (z : Z) : 0 ≤ to_uint8 z < 256.
Proof. unfold to_uint8. apply Z.mod_pos_bound. lia. Qed.

(** C9: after the [Add] calls [qs] on a new object, the vector holds
    [length qs] queues, [Size] returns that number modulo 256, and it is a
    different number as soon as more than 255 queues were added. *)
Theorem Size_truncates_to_uint8 (qs : list ptr) :
  let q := add_all qs CAllScriptCheckQueues_ctor in
  length (vScriptCheckQueues q) = length qs
  ∧ Size q = Z.of_nat (length qs) mod 256
  ∧ ((255 < length qs)%nat → Size q ≠ Z.of_nat (length qs)).
Proof.
  intros q. subst q. unfold Size. rewrite add_all_vector. simpl.
  split; [done|]. split; [done|].
  intros Hbig Heq.
  pose proof (to_uint8_range (Z.of_nat (length qs))) as Hr.
  rewrite Heq in Hr. lia.
Qed.

End queue_facts.

Lemma Size_truncates_to_uint8_witness :
  let q := ScriptCheckQueues.add_all (replicate 256 64%N)
             ScriptCheckQueues.CAllScriptCheckQueues_ctor in
  ScriptCheckQueues.Size q = 0 ∧ ScriptCheckQueues.Size q ≠ 256.
Proof.
  intros q.
  destruct (Size_truncates_to_uint8 (replicate 256 64%N)) as (_ & Hmod & Hne).
  split.
  - exact Hmod.
  - apply Hne. vm_compute. lia.
Defined.

(** ** CParallelValidation *)

Section session_facts.

Import ParallelValidation.

Lemma StopAllValidationThreads_except_lookup (self t : thread_id) (m : sessions) :
  StopAllValidationThreads_except self m !! t
  = (λ s, if decide (t = self) then s else set_fQuit true s) <$> m !! t.
Proof.
  unfold StopAllValidationThreads_except. rewrite map_lookup_imap.
  by destruct (m !! t).
Qed.


End session_facts.


(** ** CConnMgr *)

Section registry_facts.

Import ConnMgr.

Implicit Types (l vNodes : list CNode_ptr) (p q pnode : CNode_ptr).
Implicit Types (P : Peers) (w : World).

(** *** FindNode, AddNode, RemoveNode *)

Lemma FindNode_end l p : FindNode l p = vend l ↔ p ∉ l.
Proof.
  unfold vend. induction l as [|x l IH]; simpl.
  - split; [intros _; apply not_elem_of_nil | done].
  - rewrite not_elem_of_cons. case_decide as Hx.
    + split; [discriminate | intros [Hne _]; congruence].
    + split.
      * intros Heq. split; [congruence | apply IH; lia].
      * intros [_ Hnot]. f_equal. by apply IH.
Qed.

Lemma FindNode_found l p : FindNode l p ≠ vend l ↔ p ∈ l.
Proof.
  rewrite FindNode_end. split.
  - intros H. by destruct (decide (p ∈ l)).
  - intros H Hn. by apply Hn.
Qed.

Lemma FindNode_lookup l p : p ∈ l → l !! FindNode l p = Some p.
Proof.
  induction l as [|x l IH]; simpl.
  - by intros ?%elem_of_nil.
  - intros [->|Hin]%elem_of_cons.
    + by rewrite decide_True.
    + case_decide as Hx; [by subst | by apply IH].
Qed.

(** Erasing at the found position, one element at a time. *)
Lemma erase_found_cons x l p :
  delete (FindNode (x :: l) p) (x :: l)
  = if decide (x = p) then l else x :: delete (FindNode l p) l.
Proof. simpl. by case_decide. Qed.

Lemma erase_found_elem l p q :
  q ≠ p → q ∈ delete (FindNode l p) l ↔ q ∈ l.
Proof.
  intros Hne. induction l as [|x l IH]; [done|].
  rewrite erase_found_cons. case_decide as Hx.
  - subst x. rewrite elem_of_cons.
    split; [by right | intros [?|?]; [congruence | done]].
  - rewrite !elem_of_cons, IH. done.
Qed.

Lemma erase_found_subset l p q : q ∈ delete (FindNode l p) l → q ∈ l.
Proof.
  induction l as [|x l IH]; [done|].
  rewrite erase_found_cons. case_decide as Hx.
  - apply list_elem_of_further.
  - rewrite !elem_of_cons. intros [?|?]; [by left | right; by apply IH].
Qed.

Lemma erase_found_NoDup l p : NoDup l → NoDup (delete (FindNode l p) l).
Proof.
  induction 1 as [|x l Hx Hl IH]; [constructor|].
  rewrite erase_found_cons. case_decide; [done|].
  constructor; [|done]. intros Hin. by apply Hx, (erase_found_subset l p).
Qed.

Lemma erase_found_gone l p : NoDup l → p ∉ delete (FindNode l p) l.
Proof.
  induction 1 as [|x l Hx Hl IH]; [apply not_elem_of_nil|].
  rewrite erase_found_cons. case_decide as Hxp.
  - by subst x.
  - rewrite not_elem_of_cons. split; [congruence | done].
Qed.

Lemma erase_found_length l p :
  p ∈ l → S (length (delete (FindNode l p) l)) = length l.
Proof.
  induction l as [|x l IH]; [by intros ?%elem_of_nil|].
  rewrite erase_found_cons. intros Hin. case_decide as Hx; [done|].
  simpl. f_equal. apply IH. apply elem_of_cons in Hin as [->|]; done.
Qed.

Lemma RemoveNode_absent l p P : p ∉ l → RemoveNode l p P = (false, (l, P)).
Proof.
  intros Hp. unfold RemoveNode. rewrite decide_False; [done|].
  intros Hne. by apply FindNode_found in Hne.
Qed.

Lemma RemoveNode_present l p P :
  p ∈ l → RemoveNode l p P = (true, (delete (FindNode l p) l, Release p P)).
Proof.
  intros Hp. unfold RemoveNode. rewrite decide_True; [done|].
  by apply FindNode_found.
Qed.

Lemma RemoveNode_NoDup l p P : NoDup l → NoDup (RemoveNode l p P).2.1.
Proof.
  intros Hl. destruct (decide (p ∈ l)) as [Hp|Hp].
  - rewrite RemoveNode_present by done. by apply erase_found_NoDup.
  - by rewrite RemoveNode_absent.
Qed.

Lemma RemoveNode_gone l p P : NoDup l → p ∉ (RemoveNode l p P).2.1.
Proof.
  intros Hl. destruct (decide (p ∈ l)) as [Hp|Hp].
  - rewrite RemoveNode_present by done. by apply erase_found_gone.
  - by rewrite RemoveNode_absent.
Qed.

Lemma RemoveNode_other l p q P : q ≠ p → q ∈ (RemoveNode l p P).2.1 ↔ q ∈ l.
Proof.
  intros Hne. destruct (decide (p ∈ l)) as [Hp|Hp].
  - rewrite RemoveNode_present by done. by apply erase_found_elem.
  - by rewrite RemoveNode_absent.
Qed.

Lemma RemoveNode_length l p P :
  Z.of_nat (length (RemoveNode l p P).2.1)
  = Z.of_nat (length l) - (if decide (p ∈ l) then 1 else 0).
Proof.
  case_decide as Hp.
  - rewrite RemoveNode_present by done. simpl.
    pose proof (erase_found_length l p Hp). lia.
  - rewrite RemoveNode_absent by done. simpl. lia.
Qed.

Lemma AddNode_NoDup l p P : NoDup l → p ∉ l → NoDup (AddNode l p P).1.
Proof.
  intros Hl Hp. simpl. apply NoDup_app. split; [done|].
  split; [|apply NoDup_singleton].
  intros x Hx ->%list_elem_of_singleton. done.
Qed.

Lemma RemoveNode_vec l p P :
  (RemoveNode l p P).2.1 = if decide (p ∈ l) then delete (FindNode l p) l else l.
Proof.
  case_decide as Hp; [by rewrite RemoveNode_present | by rewrite RemoveNode_absent].
Qed.

Lemma RemoveNode_vec_peers l p P P' : (RemoveNode l p P).2.1 = (RemoveNode l p P').2.1.
Proof. by rewrite !RemoveNode_vec. Qed.

(** *** What each member function does to the three vectors *)

Lemma RemovedNode_blocks w p :
  blocks (RemovedNode p w) = (RemoveNode (blocks w) p (peers w)).2.1.
Proof. reflexivity. Qed.

Lemma RemovedNode_txs w p :
  txs (RemovedNode p w) = (RemoveNode (txs w) p (peers w)).2.1.
Proof. apply RemoveNode_vec_peers. Qed.

Lemma RemovedNode_upstream w p :
  upstream (RemovedNode p w) = (RemoveNode (upstream w) p (peers w)).2.1.
Proof. apply RemoveNode_vec_peers. Qed.

Lemma RemovedNode_absent w p :
  p ∉ blocks w → p ∉ txs w → p ∉ upstream w → RemovedNode p w = w.
Proof.
  destruct w as [[vb vt vu nb nt nx] P fThin]. unfold blocks, txs, upstream.
  simpl. intros Hb Ht Hu. unfold RemovedNode, blocks, txs, upstream. simpl.
  rewrite (RemoveNode_absent vb) by done. simpl.
  rewrite (RemoveNode_absent vt) by done. simpl.
  by rewrite (RemoveNode_absent vu) by done.
Qed.

Lemma RemovedNode_inv w p : registry_inv w → registry_inv (RemovedNode p w).
Proof.
  intros (Hb & Ht & Hu). unfold registry_inv.
  rewrite RemovedNode_blocks, RemovedNode_txs, RemovedNode_upstream.
  auto using RemoveNode_NoDup.
Qed.

Lemma RemovedNode_twice_inv w p :
  registry_inv w → RemovedNode p (RemovedNode p w) = RemovedNode p w.
Proof.
  intros (Hb & Ht & Hu). apply RemovedNode_absent.
  - rewrite RemovedNode_blocks. by apply RemoveNode_gone.
  - rewrite RemovedNode_txs. by apply RemoveNode_gone.
  - rewrite RemovedNode_upstream. by apply RemoveNode_gone.
Qed.

Lemma IsExpeditedUpstream_elem w p : IsExpeditedUpstream p w = true ↔ p ∈ upstream w.
Proof.
  unfold IsExpeditedUpstream. rewrite bool_decide_eq_true. apply FindNode_found.
Qed.

(** C4: when thin blocks are disabled, or the peer is not thin-block
    capable, [PushExpeditedRequest] returns [false] and changes nothing: the
    three vectors are the same and no peer is sent anything. *)
Theorem PushExpeditedRequest_refused w p (flags : Z) :
  IsThinBlocksEnabled w = false ∨ ThinBlockCapable p (peers w) = false →
  let r := PushExpeditedRequest p flags w in
  r.1 = false
  ∧ blocks r.2 = blocks w ∧ txs r.2 = txs w ∧ upstream r.2 = upstream w
  ∧ (∀ q, vSendMsg (peers r.2) q = vSendMsg (peers w) q)
  ∧ r.2 = w.
Proof.
  intros Hpre r. subst r. unfold PushExpeditedRequest.
  destruct (IsThinBlocksEnabled w) eqn:Hen; simpl; [|done].
  destruct Hpre as [?|Hcap]; [done|]. by rewrite Hcap.
Qed.

(** *** Flags *)

Lemma truthy_land_pow2 (flags k : Z) :
  0 ≤ k → truthy (Z.land flags (2 ^ k)) = Z.testbit flags k.
Proof.
  intros Hk. unfold truthy. destruct (Z.testbit flags k) eqn:Hbit.
  - apply negb_true_iff, Z.eqb_neq. intros Hzero.
    assert (Hk' : Z.testbit (Z.land flags (2 ^ k)) k = true).
    { by rewrite Z.land_spec, Hbit, Z.pow2_bits_true. }
    rewrite Hzero, Z.bits_0 in Hk'. discriminate.
  - apply negb_false_iff, Z.eqb_eq. apply Z.bits_inj'. intros i Hi.
    rewrite Z.land_spec, Z.bits_0. destruct (decide (k = i)) as [<-|Hne].
    + by rewrite Hbit.
    + rewrite Z.pow2_bits_false by done. apply andb_false_r.
Qed.

(** [flags & EXPEDITED_STOP] tests bit 0, [flags & EXPEDITED_BLOCKS] bit 1. *)
Lemma expedited_flag_bits (flags : Z) :
  truthy (Z.land flags EXPEDITED_STOP) = Z.testbit flags 0
  ∧ truthy (Z.land flags EXPEDITED_BLOCKS) = Z.testbit flags 1.
Proof.
  split.
  - by rewrite <- (truthy_land_pow2 flags 0).
  - by rewrite <- (truthy_land_pow2 flags 1).
Qed.

(** *** PushExpeditedRequest *)

Lemma PushMessage_sent p cmd (z : Z) P :
  vSendMsg (PushMessage p cmd z P) p = vSendMsg P p ++ [(cmd, z)].
Proof. simpl. apply fn_lookup_insert. Qed.

Lemma PushMessage_others p q cmd (z : Z) P :
  q ≠ p → vSendMsg (PushMessage p cmd z P) q = vSendMsg P q.
Proof. intros Hne. simpl. by apply fn_lookup_insert_ne. Qed.

Lemma RemoveNode_vSendMsg l p P : vSendMsg (RemoveNode l p P).2.2 = vSendMsg P.
Proof. unfold RemoveNode. by case_decide. Qed.

(** C1, as the code has it: for a capable peer with thin blocks enabled the
    call returns [true] and pushes one expedited-request message carrying
    [flags] to the peer, whatever happens to the vectors.  The upstream
    vector is touched only when [flags] has the [EXPEDITED_BLOCKS] bit: then
    the [EXPEDITED_STOP] bit removes the peer, and its absence adds the peer
    unless it is already there, whatever the vector's size.  Without the
    [EXPEDITED_BLOCKS] bit the upstream vector stays as it is. *)
Theorem PushExpeditedRequest_accepted w p (flags : Z) :
  IsThinBlocksEnabled w = true →
  ThinBlockCapable p (peers w) = true →
  let r := PushExpeditedRequest p flags w in
  r.1 = true
  ∧ vSendMsg (peers r.2) p = vSendMsg (peers w) p ++ [(XPEDITEDREQUEST, flags)]
  ∧ (∀ q, q ≠ p → vSendMsg (peers r.2) q = vSendMsg (peers w) q)
  ∧ blocks r.2 = blocks w ∧ txs r.2 = txs w
  ∧ (truthy (Z.land flags EXPEDITED_BLOCKS) = false → upstream r.2 = upstream w)
  ∧ (truthy (Z.land flags EXPEDITED_BLOCKS) = true →
     truthy (Z.land flags EXPEDITED_STOP) = true →
       upstream r.2 = (RemoveNode (upstream w) p (peers w)).2.1
       ∧ (∀ q, q ≠ p → q ∈ upstream r.2 ↔ q ∈ upstream w)
       ∧ (NoDup (upstream w) → p ∉ upstream r.2))
  ∧ (truthy (Z.land flags EXPEDITED_BLOCKS) = true →
     truthy (Z.land flags EXPEDITED_STOP) = false →
       p ∈ upstream r.2
       ∧ (p ∈ upstream w → upstream r.2 = upstream w)
       ∧ (p ∉ upstream w → upstream r.2 = upstream w ++ [p])).
Proof.
  intros Hen Hcap r. subst r. unfold PushExpeditedRequest.
  rewrite Hen, Hcap. cbn [negb].
  destruct (truthy (Z.land flags EXPEDITED_BLOCKS)) eqn:Hb;
    [destruct (truthy (Z.land flags EXPEDITED_STOP)) eqn:Hs|].
  - (* blocks, stop *)
    cbn [fst snd peers connmgr set_upstream].
    split; [done|]. split.
    { rewrite PushMessage_sent. by rewrite RemoveNode_vSendMsg. }
    split.
    { intros q Hq. rewrite PushMessage_others by done.
      by rewrite RemoveNode_vSendMsg. }
    split; [done|]. split; [done|]. split; [done|]. split.
    + intros _ _. split; [done|]. split.
      * intros q Hq. by apply RemoveNode_other.
      * intros Hnd. by apply RemoveNode_gone.
    + done.
  - (* blocks, no stop *)
    case_bool_decide as Hfind.
    + apply FindNode_end in Hfind.
      cbn [fst snd peers connmgr set_upstream AddNode].
      split; [done|]. split; [by rewrite PushMessage_sent|].
      split; [by intros q Hq; rewrite PushMessage_others|].
      split; [done|]. split; [done|]. split; [done|]. split; [done|].
      intros _ _. unfold upstream at 1 2 4. cbn [connmgr vExpeditedUpstream].
      split; [apply elem_of_app; right; by apply list_elem_of_singleton|].
      split; [done|done].
    + apply FindNode_found in Hfind.
      cbn [fst snd peers connmgr].
      split; [done|]. split; [by rewrite PushMessage_sent|].
      split; [by intros q Hq; rewrite PushMessage_others|].
      split; [done|]. split; [done|]. split; [done|]. split; [done|].
      intros _ _. split; [done|]. split; [done|done].
  - (* no blocks bit *)
    cbn [fst snd peers connmgr].
    split; [done|]. split; [by rewrite PushMessage_sent|].
    split; [by intros q Hq; rewrite PushMessage_others|].
    split; [done|]. split; [done|]. split; [done|]. split; done.
Qed.

Lemma Enable_blocks w p (fB fT fF : bool) :
  blocks (EnableExpeditedSends p fB fT fF w)
  = if fB && bool_decide (FindNode (blocks w) p = vend (blocks w))
          && (fF || bool_decide (length (blocks w) < nExpeditedBlocksMax (connmgr w))%nat)
    then blocks w ++ [p] else blocks w.
Proof.
  unfold EnableExpeditedSends.
  destruct fB, fT, fF; cbn [andb orb]; repeat case_bool_decide;
    first [reflexivity | exfalso; auto; lia].
Qed.

Lemma Enable_txs w p (fB fT fF : bool) :
  txs (EnableExpeditedSends p fB fT fF w)
  = if fT && bool_decide (FindNode (txs w) p = vend (txs w))
          && (fF || bool_decide (length (txs w) < nExpeditedTxsMax (connmgr w))%nat)
    then txs w ++ [p] else txs w.
Proof.
  unfold EnableExpeditedSends.
  destruct fB, fT, fF; cbn [andb orb]; repeat case_bool_decide;
    first [reflexivity | exfalso; auto; lia].
Qed.

Lemma Enable_upstream w p (fB fT fF : bool) :
  upstream (EnableExpeditedSends p fB fT fF w) = upstream w.
Proof.
  unfold EnableExpeditedSends.
  destruct fB, fT, fF; cbn [andb orb]; repeat case_bool_decide;
    first [reflexivity | exfalso; auto; lia].
Qed.

Lemma Enable_maxima w p (fB fT fF : bool) :
  nExpeditedBlocksMax (connmgr (EnableExpeditedSends p fB fT fF w))
  = nExpeditedBlocksMax (connmgr w)
  ∧ nExpeditedTxsMax (connmgr (EnableExpeditedSends p fB fT fF w))
    = nExpeditedTxsMax (connmgr w).
Proof.
  unfold EnableExpeditedSends.
  destruct fB, fT, fF; cbn [andb orb]; repeat case_bool_decide;
    first [split; reflexivity | exfalso; auto; lia].
Qed.

Lemma Disable_blocks w p (fB fT : bool) :
  blocks (DisableExpeditedSends p fB fT w)
  = if fB then (RemoveNode (blocks w) p (peers w)).2.1 else blocks w.
Proof. by destruct fB, fT. Qed.

Lemma Disable_txs w p (fB fT : bool) :
  txs (DisableExpeditedSends p fB fT w)
  = if fT then (RemoveNode (txs w) p (peers w)).2.1 else txs w.
Proof. destruct fB, fT; try reflexivity; apply RemoveNode_vec_peers. Qed.

Lemma Disable_upstream w p (fB fT : bool) :
  upstream (DisableExpeditedSends p fB fT w) = upstream w.
Proof. by destruct fB, fT. Qed.

Lemma Disable_maxima w p (fB fT : bool) :
  nExpeditedBlocksMax (connmgr (DisableExpeditedSends p fB fT w))
  = nExpeditedBlocksMax (connmgr w)
  ∧ nExpeditedTxsMax (connmgr (DisableExpeditedSends p fB fT w))
    = nExpeditedTxsMax (connmgr w).
Proof. by destruct fB, fT. Qed.

Lemma Push_blocks w p (flags : Z) : blocks (PushExpeditedRequest p flags w).2 = blocks w.
Proof.
  unfold PushExpeditedRequest.
  repeat (case_match; try reflexivity).
Qed.

Lemma Push_txs w p (flags : Z) : txs (PushExpeditedRequest p flags w).2 = txs w.
Proof.
  unfold PushExpeditedRequest.
  repeat (case_match; try reflexivity).
Qed.

Lemma Push_upstream w p (flags : Z) :
  upstream (PushExpeditedRequest p flags w).2
  = if IsThinBlocksEnabled w && ThinBlockCapable p (peers w)
          && truthy (Z.land flags EXPEDITED_BLOCKS)
    then if truthy (Z.land flags EXPEDITED_STOP)
         then (RemoveNode (upstream w) p (peers w)).2.1
         else if bool_decide (FindNode (upstream w) p = vend (upstream w))
              then upstream w ++ [p] else upstream w
    else upstream w.
Proof.
  unfold PushExpeditedRequest.
  destruct (IsThinBlocksEnabled w), (ThinBlockCapable p (peers w)); cbn [negb andb];
    try reflexivity.
  destruct (truthy (Z.land flags EXPEDITED_BLOCKS)); [|reflexivity].
  destruct (truthy (Z.land flags EXPEDITED_STOP)); [reflexivity|].
  case_bool_decide; reflexivity.
Qed.

(** *** The invariant *)

Lemma push_back_NoDup l p (c : bool) :
  NoDup l →
  NoDup (if bool_decide (FindNode l p = vend l) && c then l ++ [p] else l).
Proof.
  intros Hl. case_bool_decide as Hf; cbn [andb]; [|done].
  destruct c; [|done]. apply FindNode_end in Hf.
  by apply (AddNode_NoDup l p quiet_peers).
Qed.

Lemma Enable_inv w p (fB fT fF : bool) :
  registry_inv w → registry_inv (EnableExpeditedSends p fB fT fF w).
Proof.
  intros (Hb & Ht & Hu). unfold registry_inv.
  rewrite Enable_blocks, Enable_txs, Enable_upstream.
  split; [|split; [|done]].
  - destruct fB; cbn [andb]; [|done]. by apply push_back_NoDup.
  - destruct fT; cbn [andb]; [|done]. by apply push_back_NoDup.
Qed.

Lemma Disable_inv w p (fB fT : bool) :
  registry_inv w → registry_inv (DisableExpeditedSends p fB fT w).
Proof.
  intros (Hb & Ht & Hu). unfold registry_inv.
  rewrite Disable_blocks, Disable_txs, Disable_upstream.
  destruct fB, fT; auto using RemoveNode_NoDup.
Qed.

Lemma Push_inv w p (flags : Z) :
  registry_inv w → registry_inv (PushExpeditedRequest p flags w).2.
Proof.
  intros (Hb & Ht & Hu). unfold registry_inv.
  rewrite Push_blocks, Push_txs, Push_upstream.
  split; [done|]. split; [done|].
  destruct (_ && _ && _); [|done].
  destruct (truthy _); [by apply RemoveNode_NoDup|].
  pose proof (push_back_NoDup (upstream w) p true Hu) as Hadd.
  by rewrite andb_true_r in Hadd.
Qed.

Lemma step_inv w o : registry_inv w → registry_inv (step w o).
Proof.
  destruct o; simpl;
    auto using Enable_inv, Disable_inv, RemovedNode_inv, Push_inv.
Qed.

Lemma initial_inv P fThin : registry_inv (initial P fThin).
Proof. repeat split; constructor. Qed.

Lemma reachable_inv w : reachable w → registry_inv w.
Proof. induction 1; auto using initial_inv, step_inv. Qed.

Lemma run_snoc ops o w : run (ops ++ [o]) w = step (run ops w) o.
Proof. unfold run. by rewrite foldl_app. Qed.

Lemma run_reachable ops P fThin : reachable (run ops (initial P fThin)).
Proof.
  induction ops as [|o ops IH] using rev_ind.
  - apply reach_initial.
  - rewrite run_snoc. by apply reach_step.
Qed.

Lemma RemoveNode_subset l p q P : q ∈ (RemoveNode l p P).2.1 → q ∈ l.
Proof.
  rewrite RemoveNode_vec. case_decide; [apply erase_found_subset | done].
Qed.

Lemma RemoveNode_keeps_absent l p q P : q ∉ l → q ∉ (RemoveNode l p P).2.1.
Proof. intros Hq Hin. by apply Hq, (RemoveNode_subset l p q P). Qed.

(** A peer that no call ever tried to add is in none of the vectors. *)
Lemma step_keeps_absent w o p :
  may_add p o = false →
  (p ∉ blocks w) ∧ (p ∉ txs w) ∧ (p ∉ upstream w) →
  (p ∉ blocks (step w o)) ∧ (p ∉ txs (step w o)) ∧ (p ∉ upstream (step w o)).
Proof.
  intros Hadd (Hb & Ht & Hu).
  assert (Hpush : ∀ l q (c : bool), q ≠ p → p ∉ l → p ∉ (if c then l ++ [q] else l)).
  { intros l q [] Hq Hl; [|done]. rewrite not_elem_of_app.
    split; [done|]. rewrite list_elem_of_singleton. congruence. }
  destruct o as [q fB fT fF|q fB fT|q|q flags|GetArg| | |P' fThin'];
    cbn [step may_add] in *.
  - apply bool_decide_eq_false in Hadd.
    rewrite Enable_blocks, Enable_txs, Enable_upstream.
    split; [by apply Hpush|]. split; [by apply Hpush|done].
  - rewrite Disable_blocks, Disable_txs, Disable_upstream.
    destruct fB, fT; repeat split; auto using RemoveNode_keeps_absent.
  - rewrite RemovedNode_blocks, RemovedNode_txs, RemovedNode_upstream.
    repeat split; auto using RemoveNode_keeps_absent.
  - apply bool_decide_eq_false in Hadd.
    rewrite Push_blocks, Push_txs, Push_upstream.
    split; [done|]. split; [done|].
    destruct (_ && _ && _); [|done].
    destruct (truthy _); [by apply RemoveNode_keeps_absent | by apply Hpush].
  - done.
  - done.
  - done.
  - done.
Qed.

Lemma never_added_absent ops P fThin p :
  Forall (λ o, may_add p o = false) ops →
  let w := run ops (initial P fThin) in
  (p ∉ blocks w) ∧ (p ∉ txs w) ∧ (p ∉ upstream w).
Proof.
  induction ops as [|o ops IH] using rev_ind; intros Hops w; subst w.
  - repeat split; apply not_elem_of_nil.
  - apply Forall_app in Hops as [Hops Ho]. rewrite Forall_singleton in Ho.
    rewrite run_snoc. apply step_keeps_absent; [done|]. by apply IH.
Qed.

(** C5: [RemovedNode(p)] leaves a vector that does not hold [p] as it is,
    and the whole world as it is when no vector holds [p]; in every state
    the registry can reach a second [RemovedNode(p)] changes nothing, and
    neither does [RemovedNode(p)] for a peer that no call ever added. *)
Theorem RemovedNode_idempotent w p :
  (p ∉ blocks w → blocks (RemovedNode p w) = blocks w)
  ∧ (p ∉ txs w → txs (RemovedNode p w) = txs w)
  ∧ (p ∉ upstream w → upstream (RemovedNode p w) = upstream w)
  ∧ (p ∉ blocks w → p ∉ txs w → p ∉ upstream w → RemovedNode p w = w)
  ∧ (reachable w → RemovedNode p (RemovedNode p w) = RemovedNode p w)
  ∧ (∀ ops P fThin,
       Forall (λ o, may_add p o = false) ops →
       RemovedNode p (run ops (initial P fThin)) = run ops (initial P fThin)).
Proof.
  split; [|split; [|split; [|split; [|split]]]].
  - intros Hp. rewrite RemovedNode_blocks. by rewrite RemoveNode_absent.
  - intros Hp. rewrite RemovedNode_txs. by rewrite RemoveNode_absent.
  - intros Hp. rewrite RemovedNode_upstream. by rewrite RemoveNode_absent.
  - apply RemovedNode_absent.
  - intros Hw. by apply RemovedNode_twice_inv, reachable_inv.
  - intros ops P fThin Hops.
    destruct (never_added_absent ops P fThin p Hops) as (Hb & Ht & Hu).
    by apply RemovedNode_absent.
Qed.

(** C6: each of the four registry operations keeps every vector free of
    duplicates, so no sequence of calls on a new registry ever puts a peer
    twice into a vector. *)
Theorem registry_no_duplicates :
  (∀ w p fB fT fF, registry_inv w → registry_inv (EnableExpeditedSends p fB fT fF w))
  ∧ (∀ w p fB fT, registry_inv w → registry_inv (DisableExpeditedSends p fB fT w))
  ∧ (∀ w p, registry_inv w → registry_inv (RemovedNode p w))
  ∧ (∀ w p flags, registry_inv w → registry_inv (PushExpeditedRequest p flags w).2)
  ∧ (∀ P fThin, registry_inv (initial P fThin))
  ∧ (∀ w, reachable w → registry_inv w)
  ∧ (∀ ops P fThin, registry_inv (run ops (initial P fThin))).
Proof.
  split; [|split; [|split; [|split; [|split; [|split]]]]].
  - intros w p fB fT fF. apply Enable_inv.
  - intros w p fB fT. apply Disable_inv.
  - intros w p. apply RemovedNode_inv.
  - intros w p flags. apply Push_inv.
  - apply initial_inv.
  - apply reachable_inv.
  - intros ops P fThin. apply reachable_inv, run_reachable.
Qed.

(** C3: a new registry has both maxima at 32.  Without [fForceIfFull], a
    call on a vector that already holds its maximum leaves the vector as it
    is, and a vector within its maximum stays within it; with
    [fForceIfFull] the peer is in the vector afterwards, appended at the end
    if it was not there, whatever the size. *)
Theorem EnableExpeditedSends_capacity w p (fBlocks fTxs : bool) :
  (nExpeditedBlocksMax CConnMgr_ctor = 32%nat ∧ nExpeditedTxsMax CConnMgr_ctor = 32%nat)
  ∧ ((nExpeditedBlocksMax (connmgr w) ≤ length (blocks w))%nat →
     blocks (EnableExpeditedSends p fBlocks fTxs false w) = blocks w)
  ∧ ((nExpeditedTxsMax (connmgr w) ≤ length (txs w))%nat →
     txs (EnableExpeditedSends p fBlocks fTxs false w) = txs w)
  ∧ ((length (blocks w) ≤ nExpeditedBlocksMax (connmgr w))%nat →
     (length (blocks (EnableExpeditedSends p fBlocks fTxs false w))
      ≤ nExpeditedBlocksMax (connmgr (EnableExpeditedSends p fBlocks fTxs false w)))%nat)
  ∧ ((length (txs w) ≤ nExpeditedTxsMax (connmgr w))%nat →
     (length (txs (EnableExpeditedSends p fBlocks fTxs false w))
      ≤ nExpeditedTxsMax (connmgr (EnableExpeditedSends p fBlocks fTxs false w)))%nat)
  ∧ (p ∈ blocks (EnableExpeditedSends p true fTxs true w)
     ∧ (p ∉ blocks w →
        blocks (EnableExpeditedSends p true fTxs true w) = blocks w ++ [p]))
  ∧ (p ∈ txs (EnableExpeditedSends p fBlocks true true w)
     ∧ (p ∉ txs w →
        txs (EnableExpeditedSends p fBlocks true true w) = txs w ++ [p])).
Proof.
  destruct (Enable_maxima w p fBlocks fTxs false) as [HmB HmT].
  rewrite HmB, HmT, !Enable_blocks, !Enable_txs.
  split; [done|].
  split; [|split; [|split; [|split; [|split]]]].
  - intros Hfull. cbn [orb]. rewrite (bool_decide_false (_ < _)%nat) by lia.
    by rewrite andb_false_r.
  - intros Hfull. cbn [orb]. rewrite (bool_decide_false (_ < _)%nat) by lia.
    by rewrite andb_false_r.
  - intros Hle. cbn [orb]. destruct fBlocks; cbn [andb]; [|done].
    repeat case_bool_decide; cbn [andb]; rewrite ?length_app; simpl; lia.
  - intros Hle. cbn [orb]. destruct fTxs; cbn [andb]; [|done].
    repeat case_bool_decide; cbn [andb]; rewrite ?length_app; simpl; lia.
  - cbn [andb orb]. rewrite andb_true_r. case_bool_decide as Hf.
    + apply FindNode_end in Hf. split; [|done].
      apply elem_of_app. right. by apply list_elem_of_singleton.
    + apply FindNode_found in Hf. split; done.
  - cbn [andb orb]. rewrite andb_true_r. case_bool_decide as Hf.
    + apply FindNode_end in Hf. split; [|done].
      apply elem_of_app. right. by apply list_elem_of_singleton.
    + apply FindNode_found in Hf. split; done.
Qed.

(** *** Counting *)

Lemma to_uint32_small (z : Z) : 0 ≤ z < 2 ^ 32 → to_uint32 z = z.
Proof. intros Hz. unfold to_uint32. by apply Z.mod_small. Qed.

Lemma to_uint32_range (z : Z) : 0 ≤ to_uint32 z < 2 ^ 32.
Proof. unfold to_uint32. apply Z.mod_pos_bound. lia. Qed.

Lemma step_fanout_upstream w o :
  is_fanout_call o = true →
  upstream (step w o) = upstream w
  ∧ nExpeditedBlocksMax (connmgr (step w o)) = nExpeditedBlocksMax (connmgr w)
  ∧ nExpeditedTxsMax (connmgr (step w o)) = nExpeditedTxsMax (connmgr w).
Proof.
  destruct o; try discriminate; intros _; cbn [step].
  - split; [apply Enable_upstream | apply Enable_maxima].
  - split; [apply Disable_upstream | apply Disable_maxima].
Qed.

Lemma step_effective_blocks w o :
  is_fanout_call o = true →
  call_effective w o →
  Z.of_nat (length (blocks (step w o)))
  = Z.of_nat (length (blocks w))
    + (if enables_blocks o then 1 else 0) - (if disables_blocks o then 1 else 0).
Proof.
  destruct o as [p fB fT fF|p fB fT| | | | | |]; try discriminate; intros _;
    cbn [step call_effective enables_blocks disables_blocks].
  - intros [HB _]. rewrite Enable_blocks. destruct fB; cbn [andb]; [|lia].
    destruct (HB eq_refl) as [Hp Hroom].
    rewrite bool_decide_true by by apply FindNode_end.
    assert (fF || bool_decide (length (blocks w) < nExpeditedBlocksMax (connmgr w))%nat
            = true) as ->.
    { destruct Hroom as [->|Hlt]; [done|].
      rewrite (bool_decide_true _ Hlt). by rewrite orb_true_r. }
    cbn [andb]. rewrite length_app. simpl. lia.
  - intros [HB _]. rewrite Disable_blocks. destruct fB; [|lia].
    rewrite RemoveNode_length. rewrite decide_True by auto. lia.
Qed.

Lemma step_effective_txs w o :
  is_fanout_call o = true →
  call_effective w o →
  Z.of_nat (length (txs (step w o)))
  = Z.of_nat (length (txs w))
    + (if enables_txs o then 1 else 0) - (if disables_txs o then 1 else 0).
Proof.
  destruct o as [p fB fT fF|p fB fT| | | | | |]; try discriminate; intros _;
    cbn [step call_effective enables_txs disables_txs].
  - intros [_ HT]. rewrite Enable_txs. destruct fT; cbn [andb]; [|lia].
    destruct (HT eq_refl) as [Hp Hroom].
    rewrite bool_decide_true by by apply FindNode_end.
    assert (fF || bool_decide (length (txs w) < nExpeditedTxsMax (connmgr w))%nat
            = true) as ->.
    { destruct Hroom as [->|Hlt]; [done|].
      rewrite (bool_decide_true _ Hlt). by rewrite orb_true_r. }
    cbn [andb]. rewrite length_app. simpl. lia.
  - intros [_ HT]. rewrite Disable_txs. destruct fT; [|lia].
    rewrite RemoveNode_length. rewrite decide_True by auto. lia.
Qed.

Lemma step_unforced_bounded w o :
  is_fanout_call o = true →
  is_forced o = false →
  (length (blocks w) ≤ nExpeditedBlocksMax (connmgr w))%nat →
  (length (txs w) ≤ nExpeditedTxsMax (connmgr w))%nat →
  (length (blocks (step w o)) ≤ nExpeditedBlocksMax (connmgr w))%nat
  ∧ (length (txs (step w o)) ≤ nExpeditedTxsMax (connmgr w))%nat.
Proof.
  destruct o as [p fB fT fF|p fB fT| | | | | |]; try discriminate; intros _;
    cbn [step is_forced].
  - intros -> HB HT. rewrite Enable_blocks, Enable_txs. cbn [orb].
    split; repeat case_bool_decide; rewrite ?andb_true_r, ?andb_false_r;
      repeat case_match; rewrite ?length_app; simpl; lia.
  - intros _ HB HT. rewrite Disable_blocks, Disable_txs.
    pose proof (RemoveNode_length (blocks w) p (peers w)).
    pose proof (RemoveNode_length (txs w) p (peers w)).
    split; repeat case_match; lia.
Qed.

Lemma run_cons o ops w : run (o :: ops) w = run ops (step w o).
Proof. reflexivity. Qed.

Lemma run_fanout_frame ops w :
  Forall (λ o, is_fanout_call o = true) ops →
  upstream (run ops w) = upstream w
  ∧ nExpeditedBlocksMax (connmgr (run ops w)) = nExpeditedBlocksMax (connmgr w)
  ∧ nExpeditedTxsMax (connmgr (run ops w)) = nExpeditedTxsMax (connmgr w).
Proof.
  intros Hops. revert w. induction Hops as [|o ops Ho _ IH]; intros w; [done|].
  rewrite run_cons.
  destruct (IH (step w o)) as (-> & -> & ->). by apply step_fanout_upstream.
Qed.

Lemma run_effective_lengths ops w :
  Forall (λ o, is_fanout_call o = true) ops →
  all_effective w ops →
  Z.of_nat (length (blocks (run ops w)))
  = Z.of_nat (length (blocks w))
    + count_calls enables_blocks ops - count_calls disables_blocks ops
  ∧ Z.of_nat (length (txs (run ops w)))
    = Z.of_nat (length (txs w))
      + count_calls enables_txs ops - count_calls disables_txs ops.
Proof.
  intros Hops. revert w.
  induction Hops as [|o ops Ho _ IH]; intros w; cbn [all_effective count_calls].
  - intros _. simpl. lia.
  - intros [Heff Hrest]. rewrite run_cons.
    destruct (IH _ Hrest) as [-> ->].
    rewrite (step_effective_blocks w o Ho Heff), (step_effective_txs w o Ho Heff).
    lia.
Qed.

Lemma run_unforced_bounded ops w :
  Forall (λ o, is_fanout_call o = true) ops →
  Forall (λ o, is_forced o = false) ops →
  (length (blocks w) ≤ nExpeditedBlocksMax (connmgr w))%nat →
  (length (txs w) ≤ nExpeditedTxsMax (connmgr w))%nat →
  (length (blocks (run ops w)) ≤ nExpeditedBlocksMax (connmgr w))%nat
  ∧ (length (txs (run ops w)) ≤ nExpeditedTxsMax (connmgr w))%nat.
Proof.
  intros Hops. revert w.
  induction Hops as [|o ops Ho _ IH]; intros w Hunf HB HT; [done|].
  apply Forall_cons in Hunf as [Hunf1 Hunf].
  rewrite run_cons.
  destruct (step_unforced_bounded w o Ho Hunf1 HB HT) as [HB' HT'].
  destruct (step_fanout_upstream w o Ho) as (_ & HmB & HmT).
  rewrite <- HmB, <- HmT. apply IH; [done|lia|lia].
Qed.


End registry_facts.

(** *** The registry on concrete data *)

Lemma PushExpeditedRequest_refused_witness :
  (ConnMgr.PushExpeditedRequest 7%N EXPEDITED_BLOCKS thin_disabled_world).1 = false
  ∧ (ConnMgr.PushExpeditedRequest 7%N EXPEDITED_BLOCKS thin_disabled_world).2
    = thin_disabled_world.
Proof.
  destruct (PushExpeditedRequest_refused thin_disabled_world 7%N EXPEDITED_BLOCKS)
    as (Hret & _ & _ & _ & _ & Hsame).
  - left. reflexivity.
  - split; assumption.
Defined.

Lemma PushExpeditedRequest_accepted_witness :
  (ConnMgr.PushExpeditedRequest 7%N EXPEDITED_BLOCKS sample_world).1 = true
  ∧ ConnMgr.vSendMsg
      (ConnMgr.peers (ConnMgr.PushExpeditedRequest 7%N EXPEDITED_BLOCKS sample_world).2)
      7%N
    = [(ConnMgr.XPEDITEDREQUEST, EXPEDITED_BLOCKS)]
  ∧ 7%N ∈ ConnMgr.upstream
            (ConnMgr.PushExpeditedRequest 7%N EXPEDITED_BLOCKS sample_world).2.
Proof.
  destruct (PushExpeditedRequest_accepted sample_world 7%N EXPEDITED_BLOCKS)
    as (Hret & Hmsg & _ & _ & _ & _ & _ & Hadd); [reflexivity|reflexivity|].
  split; [exact Hret|]. split; [exact Hmsg|].
  apply Hadd; reflexivity.
Defined.

(** C1 as stated fails: peer 7 is capable and is an upstream source, the
    flags carry [EXPEDITED_STOP] without [EXPEDITED_BLOCKS], and peer 7 is
    still an upstream source after the call; likewise flags without
    [EXPEDITED_STOP] and without [EXPEDITED_BLOCKS] do not add peer 9. *)
Lemma PushExpeditedRequest_stop_counterexample :
  ConnMgr.IsThinBlocksEnabled upstream_world = true
  ∧ ConnMgr.ThinBlockCapable 7%N (ConnMgr.peers upstream_world) = true
  ∧ ConnMgr.upstream upstream_world = [7%N]
  ∧ truthy (Z.land EXPEDITED_STOP EXPEDITED_STOP) = true
  ∧ ConnMgr.upstream (ConnMgr.PushExpeditedRequest 7%N EXPEDITED_STOP upstream_world).2
    = [7%N]
  ∧ truthy (Z.land EXPEDITED_TXNS EXPEDITED_STOP) = false
  ∧ ConnMgr.upstream (ConnMgr.PushExpeditedRequest 9%N EXPEDITED_TXNS sample_world).2
    = [].
Proof. repeat split. Qed.

Lemma EnableExpeditedSends_capacity_witness :
  ConnMgr.blocks (ConnMgr.EnableExpeditedSends 100%N true true false full_world)
  = ConnMgr.blocks full_world
  ∧ ConnMgr.txs (ConnMgr.EnableExpeditedSends 100%N true true false full_world)
    = ConnMgr.txs full_world
  ∧ (length (ConnMgr.blocks
               (ConnMgr.EnableExpeditedSends 100%N true true false full_world))
     ≤ 32)%nat
  ∧ ConnMgr.blocks (ConnMgr.EnableExpeditedSends 100%N true true true full_world)
    = ConnMgr.blocks full_world ++ [100%N].
Proof.
  destruct (EnableExpeditedSends_capacity full_world 100%N true true)
    as (_ & HB & HT & HleB & _ & [_ HfB] & _).
  split; [apply HB; vm_compute; lia|].
  split; [apply HT; vm_compute; lia|].
  split; [apply HleB; vm_compute; lia|].
  apply HfB. apply (bool_decide_unpack _). vm_compute. exact I.
Defined.

Lemma RemovedNode_idempotent_witness :
  ConnMgr.RemovedNode 7%N (ConnMgr.RemovedNode 7%N upstream_world)
  = ConnMgr.RemovedNode 7%N upstream_world
  ∧ ConnMgr.RemovedNode 9%N sample_world = sample_world.
Proof.
  destruct (RemovedNode_idempotent upstream_world 7%N) as (_ & _ & _ & _ & Htwice & _).
  destruct (RemovedNode_idempotent sample_world 9%N) as (_ & _ & _ & Habsent & _).
  split.
  - apply Htwice.
    apply (ConnMgr.reach_step sample_world (ConnMgr.OpPush 7%N EXPEDITED_BLOCKS)).
    apply ConnMgr.reach_initial.
  - apply Habsent; apply not_elem_of_nil.
Defined.

(** [RemoveNode] erases one occurrence: on a vector outside the invariant a
    second [RemovedNode] still finds the peer. *)
Lemma RemovedNode_needs_invariant :
  ¬ ConnMgr.registry_inv duplicated_world
  ∧ ConnMgr.blocks (ConnMgr.RemovedNode 5%N duplicated_world) = [5%N]
  ∧ ConnMgr.blocks (ConnMgr.RemovedNode 5%N (ConnMgr.RemovedNode 5%N duplicated_world))
    = [].
Proof.
  split; [|split; reflexivity].
  intros [Hdup _]. apply NoDup_cons in Hdup as [Hnotin _].
  apply Hnotin, list_elem_of_here.
Qed.

Lemma registry_no_duplicates_witness : ConnMgr.registry_inv upstream_world.
Proof.
  destruct registry_no_duplicates as (_ & _ & _ & Hpush & Hinit & _).
  apply (Hpush sample_world 7%N EXPEDITED_BLOCKS), Hinit.
Defined.



(** ** More on the registry's helpers *)

Section helper_facts.

Import ConnMgr.

Implicit Types (l vNodes : list CNode_ptr) (p q pnode : CNode_ptr).
Implicit Types (P : Peers) (w : World).

Lemma FindNode_split l p :
  p ∈ l →
  l = take (FindNode l p) l ++ p :: drop (S (FindNode l p)) l
  ∧ p ∉ take (FindNode l p) l.
Proof.
  induction l as [|x l IH]; [by intros ?%elem_of_nil|].
  intros Hin. cbn [FindNode]. case_decide as Hx.
  - subst x. simpl. rewrite drop_0. split; [done | apply not_elem_of_nil].
  - apply elem_of_cons in Hin as [->|Hin]; [done|].
    destruct (IH Hin) as [Heq Hnot]. simpl. split.
    + by rewrite <- Heq.
    + rewrite not_elem_of_cons. split; [congruence | done].
Qed.

Lemma Release_count p q P :
  nRefCount (Release p P) q = nRefCount P q - (if decide (q = p) then 1 else 0).
Proof.
  simpl. case_decide as Hq.
  - subst q. by rewrite fn_lookup_insert.
  - rewrite fn_lookup_insert_ne by done. lia.
Qed.

Lemma AddRef_count p q P :
  nRefCount (AddRef p P) q = nRefCount P q + (if decide (q = p) then 1 else 0).
Proof.
  simpl. case_decide as Hq.
  - subst q. by rewrite fn_lookup_insert.
  - rewrite fn_lookup_insert_ne by done. lia.
Qed.

(** X1: [RemoveNode] returns whether the node was in the vector.  If it was
    not, nothing changes.  If it was, exactly its first occurrence is erased,
    the other elements keep their order, and one reference on the node (and
    on no other) is released. *)
Theorem RemoveNode_first_occurrence l p P :
  (RemoveNode l p P).1 = bool_decide (p ∈ l)
  ∧ (p ∉ l → (RemoveNode l p P).2 = (l, P))
  ∧ (p ∈ l →
     ∃ l1 l2, l = l1 ++ p :: l2 ∧ (p ∉ l1)
              ∧ (RemoveNode l p P).2.1 = l1 ++ l2
              ∧ nRefCount (RemoveNode l p P).2.2 p = nRefCount P p - 1
              ∧ ∀ q, q ≠ p →
                  nRefCount (RemoveNode l p P).2.2 q = nRefCount P q).
Proof.
  split; [|split].
  - destruct (decide (p ∈ l)) as [Hp|Hp].
    + rewrite RemoveNode_present by done. by rewrite bool_decide_true.
    + rewrite RemoveNode_absent by done. by rewrite bool_decide_false.
  - intros Hp. by rewrite RemoveNode_absent.
  - intros Hp. destruct (FindNode_split l p Hp) as [Heq Hnot].
    exists (take (FindNode l p) l), (drop (S (FindNode l p)) l).
    rewrite RemoveNode_present by done. cbn [fst snd].
    split; [done|]. split; [done|]. split; [apply delete_take_drop|].
    split.
    + rewrite Release_count. by rewrite decide_True.
    + intros q Hq. rewrite Release_count. rewrite decide_False by done. lia.
Qed.

(** *** References *)

Lemma occurrences_app q l1 l2 :
  occurrences q (l1 ++ l2) = occurrences q l1 + occurrences q l2.
Proof. unfold occurrences. rewrite filter_app, length_app. lia. Qed.

Lemma occurrences_cons q x l :
  occurrences q (x :: l) = (if decide (q = x) then 1 else 0) + occurrences q l.
Proof.
  unfold occurrences. rewrite filter_cons.
  destruct (decide (x = q)) as [->|Hx].
  - rewrite decide_True by done. simpl. lia.
  - rewrite decide_False by congruence. lia.
Qed.

Lemma occurrences_nil q : occurrences q [] = 0.
Proof. reflexivity. Qed.

Lemma occurrences_nonneg q l : 0 ≤ occurrences q l.
Proof. unfold occurrences. lia. Qed.

Lemma occurrences_absent q l : q ∉ l → occurrences q l = 0.
Proof.
  induction l as [|x l IH]; [done|].
  rewrite not_elem_of_cons, occurrences_cons. intros [Hne Hl].
  rewrite decide_False by done. rewrite IH by done. lia.
Qed.

Lemma occurrences_NoDup q l : NoDup l → q ∈ l → occurrences q l = 1.
Proof.
  induction 1 as [|x l Hx Hl IH]; [by intros ?%elem_of_nil|].
  rewrite occurrences_cons. intros [->|Hin]%elem_of_cons.
  - rewrite decide_True by done. rewrite occurrences_absent by done. lia.
  - rewrite decide_False by (intros ->; done). rewrite IH by done. lia.
Qed.

Lemma occurrences_erase_found l p q :
  p ∈ l →
  occurrences q (delete (FindNode l p) l)
  = occurrences q l - (if decide (q = p) then 1 else 0).
Proof.
  induction l as [|x l IH]; [by intros ?%elem_of_nil|].
  intros Hin. rewrite erase_found_cons.
  destruct (decide (x = p)) as [->|Hx].
  - rewrite occurrences_cons. lia.
  - apply elem_of_cons in Hin as [->|Hin]; [done|].
    rewrite !occurrences_cons, IH by done. lia.
Qed.

Lemma AddNode_balance l p P q :
  nRefCount (AddNode l p P).2 q - occurrences q (AddNode l p P).1
  = nRefCount P q - occurrences q l.
Proof.
  cbn [AddNode fst snd]. rewrite AddRef_count, occurrences_app, occurrences_cons.
  rewrite occurrences_nil. lia.
Qed.

Lemma RemoveNode_balance l p P q :
  nRefCount (RemoveNode l p P).2.2 q - occurrences q (RemoveNode l p P).2.1
  = nRefCount P q - occurrences q l.
Proof.
  destruct (decide (p ∈ l)) as [Hp|Hp]; [|by rewrite RemoveNode_absent].
  rewrite RemoveNode_present by done. cbn [fst snd].
  rewrite Release_count, occurrences_erase_found by done. lia.
Qed.

(** The references the peers carry beyond those the vectors account for. *)
Lemma set_blocks_balance w (vp : list CNode_ptr * Peers) q :
  nRefCount vp.2 q - occurrences q vp.1
  = nRefCount (peers w) q - occurrences q (blocks w) →
  nRefCount (peers (set_blocks vp w)) q - references_held q (set_blocks vp w)
  = nRefCount (peers w) q - references_held q w.
Proof. unfold references_held, blocks, txs, upstream. simpl. lia. Qed.

Lemma set_txs_balance w (vp : list CNode_ptr * Peers) q :
  nRefCount vp.2 q - occurrences q vp.1
  = nRefCount (peers w) q - occurrences q (txs w) →
  nRefCount (peers (set_txs vp w)) q - references_held q (set_txs vp w)
  = nRefCount (peers w) q - references_held q w.
Proof. unfold references_held, blocks, txs, upstream. simpl. lia. Qed.

Lemma set_upstream_balance w (vp : list CNode_ptr * Peers) q :
  nRefCount vp.2 q - occurrences q vp.1
  = nRefCount (peers w) q - occurrences q (upstream w) →
  nRefCount (peers (set_upstream vp w)) q - references_held q (set_upstream vp w)
  = nRefCount (peers w) q - references_held q w.
Proof. unfold references_held, blocks, txs, upstream. simpl. lia. Qed.

Lemma Enable_balance w p (fB fT fF : bool) q :
  nRefCount (peers (EnableExpeditedSends p fB fT fF w)) q
  - references_held q (EnableExpeditedSends p fB fT fF w)
  = nRefCount (peers w) q - references_held q w.
Proof.
  unfold EnableExpeditedSends. cbv zeta.
  set (w1 := if fB && _ then _ else _).
  assert (H1 : nRefCount (peers w1) q - references_held q w1
               = nRefCount (peers w) q - references_held q w).
  { subst w1. repeat case_match; try done.
    apply set_blocks_balance, AddNode_balance. }
  rewrite <- H1. repeat case_match; try done.
  apply set_txs_balance, AddNode_balance.
Qed.

Lemma Disable_balance w p (fB fT : bool) q :
  nRefCount (peers (DisableExpeditedSends p fB fT w)) q
  - references_held q (DisableExpeditedSends p fB fT w)
  = nRefCount (peers w) q - references_held q w.
Proof.
  unfold DisableExpeditedSends. cbv zeta.
  set (w1 := if fB then _ else _).
  assert (H1 : nRefCount (peers w1) q - references_held q w1
               = nRefCount (peers w) q - references_held q w).
  { subst w1. destruct fB; [|done].
    apply set_blocks_balance, RemoveNode_balance. }
  rewrite <- H1. destruct fT; [|done].
  apply set_txs_balance, RemoveNode_balance.
Qed.

Lemma RemovedNode_balance w p q :
  nRefCount (peers (RemovedNode p w)) q - references_held q (RemovedNode p w)
  = nRefCount (peers w) q - references_held q w.
Proof.
  unfold RemovedNode. cbv zeta.
  rewrite set_upstream_balance by apply RemoveNode_balance.
  rewrite set_txs_balance by apply RemoveNode_balance.
  apply set_blocks_balance, RemoveNode_balance.
Qed.

Lemma Push_balance w p (flags : Z) q :
  nRefCount (peers (PushExpeditedRequest p flags w).2) q
  - references_held q (PushExpeditedRequest p flags w).2
  = nRefCount (peers w) q - references_held q w.
Proof.
  unfold PushExpeditedRequest.
  destruct (negb (IsThinBlocksEnabled w)); [done|].
  destruct (negb (ThinBlockCapable p (peers w))); [done|].
  cbv zeta. cbn [snd].
  set (w1 := if truthy _ then _ else _).
  change (nRefCount (peers w1) q - references_held q w1
          = nRefCount (peers w) q - references_held q w).
  subst w1. repeat case_match; try done.
  - apply set_upstream_balance, RemoveNode_balance.
  - apply set_upstream_balance, AddNode_balance.
Qed.

Lemma step_balance w o q :
  is_member_call o = true →
  nRefCount (peers (step w o)) q - references_held q (step w o)
  = nRefCount (peers w) q - references_held q w.
Proof.
  destruct o; try discriminate; intros _; cbn [step].
  - apply Enable_balance.
  - apply Disable_balance.
  - apply RemovedNode_balance.
  - apply Push_balance.
  - done.
  - done.
Qed.

(** X2: the registry takes one reference per stored pointer and gives it
    back when the pointer is erased: over any sequence of member calls
    (other than [ExpeditedBlockNodes], whose references go to its caller) a
    peer's reference count changes by exactly the change in the number of
    times the three vectors store it. *)
Theorem references_follow_membership (ops : list Op) w q :
  Forall (λ o, is_member_call o = true) ops →
  nRefCount (peers (run ops w)) q - references_held q (run ops w)
  = nRefCount (peers w) q - references_held q w.
Proof.
  intros Hops. revert w. induction Hops as [|o ops Ho _ IH]; intros w; [done|].
  rewrite run_cons, IH. by apply step_balance.
Qed.

(** *** What the calls leave alone *)

Lemma RemoveNode_capable l p P :
  fThinBlockCapable (RemoveNode l p P).2.2 = fThinBlockCapable P.
Proof. unfold RemoveNode. by case_decide. Qed.

Lemma Enable_peers_frame w p (fB fT fF : bool) :
  vSendMsg (peers (EnableExpeditedSends p fB fT fF w)) = vSendMsg (peers w)
  ∧ fThinBlockCapable (peers (EnableExpeditedSends p fB fT fF w))
    = fThinBlockCapable (peers w)
  ∧ fThinBlocksEnabled (EnableExpeditedSends p fB fT fF w) = fThinBlocksEnabled w.
Proof. unfold EnableExpeditedSends. by repeat case_match. Qed.

Lemma Disable_peers_frame w p (fB fT : bool) :
  vSendMsg (peers (DisableExpeditedSends p fB fT w)) = vSendMsg (peers w)
  ∧ fThinBlockCapable (peers (DisableExpeditedSends p fB fT w))
    = fThinBlockCapable (peers w)
  ∧ fThinBlocksEnabled (DisableExpeditedSends p fB fT w) = fThinBlocksEnabled w.
Proof.
  unfold DisableExpeditedSends.
  destruct fB, fT; cbn [set_blocks set_txs peers fThinBlocksEnabled snd];
    by rewrite ?RemoveNode_vSendMsg, ?RemoveNode_capable.
Qed.

Lemma RemovedNode_peers_frame w p :
  vSendMsg (peers (RemovedNode p w)) = vSendMsg (peers w)
  ∧ fThinBlockCapable (peers (RemovedNode p w)) = fThinBlockCapable (peers w)
  ∧ fThinBlocksEnabled (RemovedNode p w) = fThinBlocksEnabled w.
Proof.
  unfold RemovedNode.
  cbn [set_blocks set_txs set_upstream peers fThinBlocksEnabled snd].
  by rewrite ?RemoveNode_vSendMsg, ?RemoveNode_capable.
Qed.

(** *** Enable, disable, remove *)

Lemma RemoveNode_appended l p P : p ∉ l → (RemoveNode (l ++ [p]) p P).2.1 = l.
Proof.
  intros Hp. rewrite RemoveNode_vec.
  rewrite decide_True by (apply elem_of_app; right; by apply list_elem_of_singleton).
  induction l as [|x l IH]; simpl.
  - by rewrite decide_True.
  - apply not_elem_of_cons in Hp as [Hne Hl].
    rewrite decide_False by congruence. simpl. f_equal. by apply IH.
Qed.

(** X3: for a peer that is in neither fanout vector, an enable followed by
    the matching disable gives back both vectors, the upstream vector, every
    reference count and every message queue, whether or not the enable found
    room. *)
Theorem Enable_then_Disable_restores w p (fB fT fF : bool) :
  p ∉ blocks w → p ∉ txs w →
  let w' := DisableExpeditedSends p fB fT (EnableExpeditedSends p fB fT fF w) in
  blocks w' = blocks w ∧ txs w' = txs w ∧ upstream w' = upstream w
  ∧ (∀ q, nRefCount (peers w') q = nRefCount (peers w) q)
  ∧ (∀ q, vSendMsg (peers w') q = vSendMsg (peers w) q).
Proof.
  intros HpB HpT w'. subst w'.
  assert (HB : blocks (DisableExpeditedSends p fB fT (EnableExpeditedSends p fB fT fF w))
               = blocks w).
  { rewrite Disable_blocks, Enable_blocks. destruct fB; [|done].
    destruct (_ && _ && _).
    - by apply RemoveNode_appended.
    - by rewrite RemoveNode_absent. }
  assert (HT : txs (DisableExpeditedSends p fB fT (EnableExpeditedSends p fB fT fF w))
               = txs w).
  { rewrite Disable_txs, Enable_txs. destruct fT; [|done].
    destruct (_ && _ && _).
    - by apply RemoveNode_appended.
    - by rewrite RemoveNode_absent. }
  assert (HU : upstream (DisableExpeditedSends p fB fT
                           (EnableExpeditedSends p fB fT fF w)) = upstream w).
  { by rewrite Disable_upstream, Enable_upstream. }
  split; [done|]. split; [done|]. split; [done|]. split.
  - intros q.
    pose proof (Disable_balance (EnableExpeditedSends p fB fT fF w) p fB fT q) as H1.
    pose proof (Enable_balance w p fB fT fF q) as H2.
    unfold references_held in H1 at 1. rewrite HB, HT, HU in H1.
    fold (references_held q w) in H1. lia.
  - intros q.
    destruct (Disable_peers_frame (EnableExpeditedSends p fB fT fF w) p fB fT)
      as (-> & _ & _).
    by destruct (Enable_peers_frame w p fB fT fF) as (-> & _ & _).
Qed.

(** X4: in a registry without duplicates, [DisableExpeditedSends] leaves the
    peer in none of the vectors it names, leaves a vector it does not name
    and the upstream vector as they are, keeps every other peer's membership
    and both maxima, and sends nothing. *)
Theorem DisableExpeditedSends_removes w p (fB fT : bool) :
  registry_inv w →
  let w' := DisableExpeditedSends p fB fT w in
  (fB = true → p ∉ blocks w') ∧ (fT = true → p ∉ txs w')
  ∧ (fB = false → blocks w' = blocks w) ∧ (fT = false → txs w' = txs w)
  ∧ upstream w' = upstream w
  ∧ (∀ q, q ≠ p → (q ∈ blocks w' ↔ q ∈ blocks w) ∧ (q ∈ txs w' ↔ q ∈ txs w))
  ∧ nExpeditedBlocksMax (connmgr w') = nExpeditedBlocksMax (connmgr w)
  ∧ nExpeditedTxsMax (connmgr w') = nExpeditedTxsMax (connmgr w)
  ∧ (∀ q, vSendMsg (peers w') q = vSendMsg (peers w) q).
Proof.
  intros (HB & HT & _) w'. subst w'.
  rewrite Disable_blocks, Disable_txs, Disable_upstream.
  destruct (Disable_maxima w p fB fT) as [-> ->].
  destruct (Disable_peers_frame w p fB fT) as (-> & _ & _).
  split; [intros ->; by apply RemoveNode_gone|].
  split; [intros ->; by apply RemoveNode_gone|].
  split; [by intros ->|]. split; [by intros ->|].
  split; [done|]. split; [|done].
  intros q Hq. split.
  - destruct fB; [by apply RemoveNode_other | done].
  - destruct fT; [by apply RemoveNode_other | done].
Qed.

(** X5: in a registry without duplicates, [RemovedNode(p)] leaves [p] in
    none of the three vectors, so [IsExpeditedUpstream(p)] is false
    afterwards; every other peer keeps its memberships and its reference
    count, [p] loses one reference per vector that held it, and nothing is
    sent. *)
Theorem RemovedNode_purges w p :
  registry_inv w →
  let w' := RemovedNode p w in
  ((p ∉ blocks w') ∧ (p ∉ txs w') ∧ (p ∉ upstream w'))
  ∧ IsExpeditedUpstream p w' = false
  ∧ (∀ q, q ≠ p →
       (q ∈ blocks w' ↔ q ∈ blocks w) ∧ (q ∈ txs w' ↔ q ∈ txs w)
       ∧ (q ∈ upstream w' ↔ q ∈ upstream w)
       ∧ nRefCount (peers w') q = nRefCount (peers w) q)
  ∧ nRefCount (peers w') p = nRefCount (peers w) p - references_held p w
  ∧ (∀ q, vSendMsg (peers w') q = vSendMsg (peers w) q).
Proof.
  intros Hinv w'. subst w'. destruct Hinv as (HB & HT & HU).
  assert (Hgone : (p ∉ blocks (RemovedNode p w)) ∧ (p ∉ txs (RemovedNode p w))
                  ∧ (p ∉ upstream (RemovedNode p w))).
  { rewrite RemovedNode_blocks, RemovedNode_txs, RemovedNode_upstream.
    auto using RemoveNode_gone. }
  assert (Hothers : ∀ q, q ≠ p →
            (q ∈ blocks (RemovedNode p w) ↔ q ∈ blocks w)
            ∧ (q ∈ txs (RemovedNode p w) ↔ q ∈ txs w)
            ∧ (q ∈ upstream (RemovedNode p w) ↔ q ∈ upstream w)).
  { intros q Hq.
    rewrite RemovedNode_blocks, RemovedNode_txs, RemovedNode_upstream.
    auto using RemoveNode_other. }
  assert (Hocc : ∀ q l, q ≠ p → occurrences q (RemoveNode l p (peers w)).2.1
                                = occurrences q l).
  { intros q l Hq. rewrite RemoveNode_vec. case_decide; [|done].
    rewrite occurrences_erase_found by done. rewrite decide_False by done. lia. }
  split; [exact Hgone|]. split.
  { apply bool_decide_eq_false. rewrite FindNode_found. apply Hgone. }
  split.
  { intros q Hq. destruct (Hothers q Hq) as (H1 & H2 & H3).
    split; [done|]. split; [done|]. split; [done|].
    pose proof (RemovedNode_balance w p q) as Hbal.
    unfold references_held in Hbal.
    rewrite RemovedNode_blocks, RemovedNode_txs, RemovedNode_upstream in Hbal.
    rewrite !Hocc in Hbal by done. lia. }
  split.
  { pose proof (RemovedNode_balance w p p) as Hbal.
    destruct Hgone as (G1 & G2 & G3).
    unfold references_held in Hbal at 1.
    rewrite !occurrences_absent in Hbal by done. lia. }
  intros q. by destruct (RemovedNode_peers_frame w p) as (-> & _ & _).
Qed.

Lemma Enable_noop w p (fB fT fF : bool) :
  fB && bool_decide (FindNode (blocks w) p = vend (blocks w))
     && (fF || bool_decide (length (blocks w) < nExpeditedBlocksMax (connmgr w))%nat)
  = false →
  fT && bool_decide (FindNode (txs w) p = vend (txs w))
     && (fF || bool_decide (length (txs w) < nExpeditedTxsMax (connmgr w))%nat)
  = false →
  EnableExpeditedSends p fB fT fF w = w.
Proof.
  intros HB HT. unfold EnableExpeditedSends. cbv zeta.
  assert ((if fB && bool_decide (FindNode (blocks w) p = vend (blocks w))
           then if fF || bool_decide (length (blocks w)
                                      < nExpeditedBlocksMax (connmgr w))%nat
                then set_blocks (AddNode (blocks w) p (peers w)) w else w
           else w) = w) as ->.
  { destruct (fB && _); [|done]. cbn [andb] in HB. by rewrite HB. }
  destruct (fT && _); [|done]. cbn [andb] in HT. by rewrite HT.
Qed.

(** X6: [EnableExpeditedSends] is idempotent: a second call with the same
    arguments changes nothing, since the peer is then either already in the
    vector or was refused for lack of room. *)
Theorem EnableExpeditedSends_idempotent w p (fB fT fF : bool) :
  EnableExpeditedSends p fB fT fF (EnableExpeditedSends p fB fT fF w)
  = EnableExpeditedSends p fB fT fF w.
Proof.
  destruct (Enable_maxima w p fB fT fF) as [HmB HmT].
  apply Enable_noop.
  - rewrite HmB, Enable_blocks.
    destruct fB; [|done]. cbn [andb].
    destruct (bool_decide (FindNode (blocks w) p = vend (blocks w))) eqn:Hfind;
      cbn [andb].
    + destruct (fF || bool_decide (length (blocks w)
                                   < nExpeditedBlocksMax (connmgr w))%nat) eqn:Hroom.
      * rewrite bool_decide_false; [done|].
        apply FindNode_found, elem_of_app. right. by apply list_elem_of_singleton.
      * rewrite Hroom. apply andb_false_r.
    + by rewrite Hfind.
  - rewrite HmT, Enable_txs.
    destruct fT; [|done]. cbn [andb].
    destruct (bool_decide (FindNode (txs w) p = vend (txs w))) eqn:Hfind;
      cbn [andb].
    + destruct (fF || bool_decide (length (txs w)
                                   < nExpeditedTxsMax (connmgr w))%nat) eqn:Hroom.
      * rewrite bool_decide_false; [done|].
        apply FindNode_found, elem_of_app. right. by apply list_elem_of_singleton.
      * rewrite Hroom. apply andb_false_r.
    + by rewrite Hfind.
Qed.

(** *** Upstream sources *)

Lemma IsExpeditedUpstream_decide w p :
  IsExpeditedUpstream p w = bool_decide (p ∈ upstream w).
Proof. unfold IsExpeditedUpstream. apply bool_decide_ext, FindNode_found. Qed.

(** X7: [IsExpeditedUpstream] after [PushExpeditedRequest(p, flags)], for a
    registry without duplicate upstream entries: when the request is accepted
    and carries [EXPEDITED_BLOCKS], [p] is an upstream source afterwards
    exactly when [EXPEDITED_STOP] is not set; in every other case, and for
    every other peer, the answer is what it was before. *)
Theorem IsExpeditedUpstream_after_push w p q (flags : Z) :
  NoDup (upstream w) →
  IsExpeditedUpstream q (PushExpeditedRequest p flags w).2
  = if IsThinBlocksEnabled w && ThinBlockCapable p (peers w)
          && truthy (Z.land flags EXPEDITED_BLOCKS) && bool_decide (q = p)
    then negb (truthy (Z.land flags EXPEDITED_STOP))
    else IsExpeditedUpstream q w.
Proof.
  intros Hnd. rewrite !IsExpeditedUpstream_decide, Push_upstream.
  destruct (_ && _ && truthy _); cbn [andb]; [|done].
  destruct (decide (q = p)) as [->|Hq].
  - rewrite (bool_decide_true (p = p)) by done.
    destruct (truthy (Z.land flags EXPEDITED_STOP)); cbn [negb].
    + apply bool_decide_eq_false. by apply RemoveNode_gone.
    + apply bool_decide_eq_true.
      destruct (bool_decide (FindNode (upstream w) p = vend (upstream w))) eqn:Hf.
      * apply elem_of_app. right. by apply list_elem_of_singleton.
      * apply bool_decide_eq_false in Hf. by apply FindNode_found.
  - rewrite (bool_decide_false (q = p)) by done.
    destruct (truthy (Z.land flags EXPEDITED_STOP)).
    + apply bool_decide_ext. by apply RemoveNode_other.
    + apply bool_decide_ext.
      destruct (bool_decide (FindNode (upstream w) p = vend (upstream w))); [|done].
      rewrite elem_of_app, list_elem_of_singleton. split; [|by left].
      intros [?|?]; [done | congruence].
Qed.

(** X8: the registry looks at bits 0 and 1 of [flags] only: two requests
    whose flags agree on [EXPEDITED_STOP] and [EXPEDITED_BLOCKS] return the
    same value and leave the same vectors and reference counts, whatever
    [EXPEDITED_TXNS] and the higher bits are. *)
Theorem PushExpeditedRequest_flag_bits w p (flags flags' : Z) :
  Z.testbit flags 0 = Z.testbit flags' 0 →
  Z.testbit flags 1 = Z.testbit flags' 1 →
  (PushExpeditedRequest p flags w).1 = (PushExpeditedRequest p flags' w).1
  ∧ connmgr (PushExpeditedRequest p flags w).2
    = connmgr (PushExpeditedRequest p flags' w).2
  ∧ nRefCount (peers (PushExpeditedRequest p flags w).2)
    = nRefCount (peers (PushExpeditedRequest p flags' w).2).
Proof.
  intros H0 H1. unfold PushExpeditedRequest.
  destruct (expedited_flag_bits flags) as [-> ->].
  destruct (expedited_flag_bits flags') as [-> ->].
  rewrite H0, H1.
  by repeat case_match.
Qed.

(** *** ExpeditedBlockNodes *)

Lemma foldl_AddRef_count l P q :
  nRefCount (foldl (λ P pnode, AddRef pnode P) P l) q
  = nRefCount P q + occurrences q l.
Proof.
  revert P. induction l as [|x l IH]; intros P.
  - simpl. rewrite occurrences_nil. lia.
  - cbn [foldl]. rewrite IH, AddRef_count, occurrences_cons. lia.
Qed.

Lemma foldl_AddRef_frame l P :
  vSendMsg (foldl (λ P pnode, AddRef pnode P) P l) = vSendMsg P
  ∧ fThinBlockCapable (foldl (λ P pnode, AddRef pnode P) P l) = fThinBlockCapable P.
Proof.
  revert P. induction l as [|x l IH]; intros P; [done|].
  cbn [foldl]. destruct (IH (AddRef x P)) as [-> ->]. done.
Qed.

(** X9: [ExpeditedBlockNodes] returns the upstream vector (the peers this
    node receives expedited blocks from), in order; it changes no vector and
    sends nothing, and it takes one reference on a peer for each time the
    returned list holds it: exactly one for each upstream peer when the
    vector has no duplicates. *)
Theorem ExpeditedBlockNodes_snapshot w :
  let r := ExpeditedBlockNodes w in
  r.1 = upstream w
  ∧ connmgr r.2 = connmgr w
  ∧ (∀ q, vSendMsg (peers r.2) q = vSendMsg (peers w) q)
  ∧ (∀ q, nRefCount (peers r.2) q = nRefCount (peers w) q + occurrences q r.1)
  ∧ (NoDup (upstream w) →
     ∀ q, nRefCount (peers r.2) q
          = nRefCount (peers w) q + (if bool_decide (q ∈ upstream w) then 1 else 0)).
Proof.
  intros r. subst r. unfold ExpeditedBlockNodes. cbn [fst snd connmgr peers].
  split; [done|]. split; [done|]. split.
  { intros q. by destruct (foldl_AddRef_frame (upstream w) (peers w)) as [-> _]. }
  split; [intros q; apply foldl_AddRef_count|].
  intros Hnd q. rewrite foldl_AddRef_count. case_bool_decide as Hq.
  - by rewrite occurrences_NoDup.
  - by rewrite occurrences_absent.
Qed.

(** *** FindNodeFromId *)

(** X10: [FindNodeFromId] returns the first node of the list whose id is
    [id], and the null pointer when no node has that id; when the list holds
    no null pointer, the result is null exactly when no node has the id. *)
Theorem FindNodeFromId_first (vNodes : list CNode_ptr) (GetId : CNode_ptr → Z) (id : Z) :
  let r := FindNodeFromId vNodes GetId id in
  ((∃ i, vNodes !! i = Some r ∧ GetId r = id
         ∧ ∀ j q', (j < i)%nat → vNodes !! j = Some q' → GetId q' ≠ id)
   ∨ (r = nullptr ∧ ∀ q', q' ∈ vNodes → GetId q' ≠ id))
  ∧ (nullptr ∉ vNodes → (r = nullptr ↔ ∀ q', q' ∈ vNodes → GetId q' ≠ id)).
Proof.
  induction vNodes as [|x l IH]; cbn [FindNodeFromId]; cbv zeta.
  - split.
    + right. split; [done|]. by intros q' ?%elem_of_nil.
    + intros _. split; [|done]. by intros _ q' ?%elem_of_nil.
  - cbv zeta in IH. destruct IH as [IH1 IH2]. case_decide as Hx.
    + split.
      * left. exists 0%nat. split; [done|]. split; [done|]. intros j q' Hj. lia.
      * intros Hnull. apply not_elem_of_cons in Hnull as [Hx0 _]. split.
        -- intros Heq. by destruct Hx0.
        -- intros Hall. destruct (Hall x); [apply list_elem_of_here | done].
    + split.
      * destruct IH1 as [(i & Hi & Hid & Hbefore)|[Hr Hnone]].
        -- left. exists (S i). split; [done|]. split; [done|].
           intros [|j] q' Hj Hq'.
           ++ simpl in Hq'. by inversion Hq'; subst.
           ++ apply (Hbefore j q'); [lia | done].
        -- right. split; [done|].
           intros q' [->|Hin]%elem_of_cons; [done | by apply Hnone].
      * intros Hnull. apply not_elem_of_cons in Hnull as [_ Hnull].
        rewrite (IH2 Hnull). split.
        -- intros Hnone q' [->|Hin]%elem_of_cons; [done | by apply Hnone].
        -- intros Hnone q' Hin. apply Hnone. by apply list_elem_of_further.
Qed.

(** *** Messages *)

Lemma Push_peers_frame w p (flags : Z) :
  fThinBlockCapable (peers (PushExpeditedRequest p flags w).2)
  = fThinBlockCapable (peers w)
  ∧ fThinBlocksEnabled (PushExpeditedRequest p flags w).2 = fThinBlocksEnabled w.
Proof. unfold PushExpeditedRequest, RemoveNode. by repeat case_match. Qed.

Lemma Push_messages w p q (flags : Z) :
  vSendMsg (peers (PushExpeditedRequest p flags w).2) q
  = vSendMsg (peers w) q
    ++ (if IsThinBlocksEnabled w && ThinBlockCapable q (peers w)
        then requests_to q [OpPush p flags] else []).
Proof.
  unfold PushExpeditedRequest, IsThinBlocksEnabled, ThinBlockCapable.
  cbn [requests_to].
  destruct (fThinBlocksEnabled w); cbn [negb andb snd]; [|by rewrite app_nil_r].
  destruct (fThinBlockCapable (peers w) p) eqn:Hcap; cbn [negb snd].
  - cbv zeta. set (w1 := if truthy _ then _ else _).
    assert (Hw1 : vSendMsg (peers w1) = vSendMsg (peers w)).
    { subst w1. unfold RemoveNode. by repeat case_match. }
    cbn [peers]. destruct (decide (p = q)) as [<-|Hpq].
    + by rewrite PushMessage_sent, Hw1, Hcap.
    + rewrite PushMessage_others by congruence. rewrite Hw1.
      destruct (fThinBlockCapable (peers w) q); by rewrite app_nil_r.
  - destruct (decide (p = q)) as [<-|Hpq].
    + by rewrite Hcap, app_nil_r.
    + destruct (fThinBlockCapable (peers w) q); by rewrite app_nil_r.
Qed.

Lemma requests_to_cons q o ops :
  requests_to q (o :: ops) = requests_to q [o] ++ requests_to q ops.
Proof. destruct o; try reflexivity. cbn [requests_to]. by case_decide. Qed.

Lemma step_messages w o q :
  is_registry_call o = true →
  vSendMsg (peers (step w o)) q
  = vSendMsg (peers w) q
    ++ (if IsThinBlocksEnabled w && ThinBlockCapable q (peers w)
        then requests_to q [o] else [])
  ∧ fThinBlockCapable (peers (step w o)) = fThinBlockCapable (peers w)
  ∧ fThinBlocksEnabled (step w o) = fThinBlocksEnabled w.
Proof.
  assert (Hnil : ∀ (b : bool) (l : list (NetMsgType * Z)),
            l = l ++ (if b then [] else [])).
  { intros [] l; by rewrite app_nil_r. }
  destruct o as [p fB fT fF|p fB fT|p|p flags|GetArg| | |];
    try discriminate; intros _; cbn [step].
  - destruct (Enable_peers_frame w p fB fT fF) as (-> & -> & ->).
    split; [apply Hnil | done].
  - destruct (Disable_peers_frame w p fB fT) as (-> & -> & ->).
    split; [apply Hnil | done].
  - destruct (RemovedNode_peers_frame w p) as (-> & -> & ->).
    split; [apply Hnil | done].
  - split; [apply Push_messages | apply Push_peers_frame].
  - split; [apply Hnil | done].
  - split; [apply Hnil | done].
  - cbn [ExpeditedBlockNodes snd peers fThinBlocksEnabled].
    destruct (foldl_AddRef_frame (upstream w) (peers w)) as [-> ->].
    split; [apply Hnil | done].
Qed.

(** X11: over any sequence of member calls, the messages queued for a peer
    grow by exactly the expedited requests addressed to it, one message per
    call, in call order and with each call's flags, repeats included,
    provided thin blocks are enabled and the peer is thin-block capable;
    otherwise nothing is queued for it.  No other member function sends. *)
Theorem run_messages (ops : list Op) w q :
  Forall (λ o, is_registry_call o = true) ops →
  vSendMsg (peers (run ops w)) q
  = vSendMsg (peers w) q
    ++ (if IsThinBlocksEnabled w && ThinBlockCapable q (peers w)
        then requests_to q ops else []).
Proof.
  intros Hops. revert w. induction Hops as [|o ops Ho _ IH]; intros w.
  - simpl. destruct (_ && _); by rewrite app_nil_r.
  - rewrite run_cons, IH.
    destruct (step_messages w o q Ho) as (-> & Hcap & Hen).
    unfold IsThinBlocksEnabled, ThinBlockCapable. rewrite Hcap, Hen.
    rewrite (requests_to_cons q o ops).
    destruct (_ && _); by rewrite <- ?app_assoc, ?app_nil_r.
Qed.

(** *** Capacity *)

Lemma Push_maxima w p (flags : Z) :
  nExpeditedBlocksMax (connmgr (PushExpeditedRequest p flags w).2)
  = nExpeditedBlocksMax (connmgr w)
  ∧ nExpeditedTxsMax (connmgr (PushExpeditedRequest p flags w).2)
    = nExpeditedTxsMax (connmgr w).
Proof. unfold PushExpeditedRequest. by repeat case_match. Qed.

Lemma step_within_capacity w o :
  keeps_capacity o = true →
  (length (blocks w) ≤ nExpeditedBlocksMax (connmgr w))%nat →
  (length (txs w) ≤ nExpeditedTxsMax (connmgr w))%nat →
  (length (blocks (step w o)) ≤ nExpeditedBlocksMax (connmgr w))%nat
  ∧ (length (txs (step w o)) ≤ nExpeditedTxsMax (connmgr w))%nat
  ∧ nExpeditedBlocksMax (connmgr (step w o)) = nExpeditedBlocksMax (connmgr w)
  ∧ nExpeditedTxsMax (connmgr (step w o)) = nExpeditedTxsMax (connmgr w).
Proof.
  destruct o as [p fB fT fF|p fB fT|p|p flags|GetArg| | |P' fThin'];
    try discriminate; cbn [keeps_capacity]; intros Hcap HB HT.
  - apply negb_true_iff in Hcap.
    destruct (step_unforced_bounded w (OpEnable p fB fT fF) eq_refl Hcap HB HT).
    destruct (Enable_maxima w p fB fT fF). done.
  - destruct (step_unforced_bounded w (OpDisable p fB fT) eq_refl eq_refl HB HT).
    destruct (Disable_maxima w p fB fT). done.
  - cbn [step]. rewrite RemovedNode_blocks, RemovedNode_txs.
    pose proof (RemoveNode_length (blocks w) p (peers w)).
    pose proof (RemoveNode_length (txs w) p (peers w)).
    split; [repeat case_match; lia|]. split; [repeat case_match; lia|]. done.
  - cbn [step]. rewrite Push_blocks, Push_txs.
    destruct (Push_maxima w p flags). done.
  - done.
  - done.
  - done.
Qed.

(** X12: as long as no enable is forced and the maxima are not
    reconfigured, no interleaving of registry calls (enables, disables,
    removals, expedited requests, id allocation, snapshots) and of changes to
    the peers makes a fanout vector larger than its maximum. *)
Theorem run_within_capacity (ops : list Op) w :
  Forall (λ o, keeps_capacity o = true) ops →
  (length (blocks w) ≤ nExpeditedBlocksMax (connmgr w))%nat →
  (length (txs w) ≤ nExpeditedTxsMax (connmgr w))%nat →
  (length (blocks (run ops w)) ≤ nExpeditedBlocksMax (connmgr (run ops w)))%nat
  ∧ (length (txs (run ops w)) ≤ nExpeditedTxsMax (connmgr (run ops w)))%nat
  ∧ nExpeditedBlocksMax (connmgr (run ops w)) = nExpeditedBlocksMax (connmgr w)
  ∧ nExpeditedTxsMax (connmgr (run ops w)) = nExpeditedTxsMax (connmgr w).
Proof.
  intros Hops. revert w. induction Hops as [|o ops Ho _ IH]; intros w HB HT.
  - done.
  - rewrite run_cons.
    destruct (step_within_capacity w o Ho HB HT) as (HB' & HT' & HmB & HmT).
    rewrite <- HmB, <- HmT. apply IH; lia.
Qed.

(** X13: [HandleCommandLine] replaces each maximum by the configuration's
    signed 64-bit value reduced modulo 2^32, the conversion to the unsigned
    32-bit member: a value from 0 to 2^32 - 1 is taken as it is, a negative
    value down to -2^32 has 2^32 added (so -1 lifts the cap to 4294967295),
    a larger value loses its high bits.  The call touches neither the
    vectors nor the peers and evicts nobody: when the new maximum is at or
    below the current size the vector keeps its peers, and unforced enables
    are refused from then on. *)
Theorem HandleCommandLine_keeps_peers (GetArg : string → Z → Z) w :
  let w' := HandleCommandLine GetArg w in
  let vB := GetArg "-maxexpeditedblockrecipients"
                   (Z.of_nat (nExpeditedBlocksMax (connmgr w))) in
  let vT := GetArg "-maxexpeditedtxrecipients"
                   (Z.of_nat (nExpeditedTxsMax (connmgr w))) in
  (blocks w' = blocks w ∧ txs w' = txs w ∧ upstream w' = upstream w
   ∧ peers w' = peers w)
  ∧ (Z.of_nat (nExpeditedBlocksMax (connmgr w')) = vB mod 2 ^ 32
     ∧ Z.of_nat (nExpeditedTxsMax (connmgr w')) = vT mod 2 ^ 32)
  ∧ ((0 ≤ vB < 2 ^ 32 → Z.of_nat (nExpeditedBlocksMax (connmgr w')) = vB)
     ∧ (0 ≤ vT < 2 ^ 32 → Z.of_nat (nExpeditedTxsMax (connmgr w')) = vT))
  ∧ ((- 2 ^ 32 ≤ vB < 0 → Z.of_nat (nExpeditedBlocksMax (connmgr w')) = vB + 2 ^ 32)
     ∧ (- 2 ^ 32 ≤ vT < 0 → Z.of_nat (nExpeditedTxsMax (connmgr w')) = vT + 2 ^ 32))
  ∧ (∀ p fT,
       vB mod 2 ^ 32 ≤ Z.of_nat (length (blocks w)) →
       blocks (EnableExpeditedSends p true fT false w') = blocks w)
  ∧ (∀ p fB,
       vT mod 2 ^ 32 ≤ Z.of_nat (length (txs w)) →
       txs (EnableExpeditedSends p fB true false w') = txs w).
Proof.
  intros w' vB vT.
  assert (HmB : Z.of_nat (nExpeditedBlocksMax (connmgr w')) = vB mod 2 ^ 32).
  { subst w' vB. cbn [HandleCommandLine connmgr nExpeditedBlocksMax].
    unfold configured_max. pose proof (to_uint32_range
      (GetArg "-maxexpeditedblockrecipients"
              (Z.of_nat (nExpeditedBlocksMax (connmgr w))))) as Hr.
    rewrite Z2Nat.id by lia. reflexivity. }
  assert (HmT : Z.of_nat (nExpeditedTxsMax (connmgr w')) = vT mod 2 ^ 32).
  { subst w' vT. cbn [HandleCommandLine connmgr nExpeditedTxsMax].
    unfold configured_max. pose proof (to_uint32_range
      (GetArg "-maxexpeditedtxrecipients"
              (Z.of_nat (nExpeditedTxsMax (connmgr w))))) as Hr.
    rewrite Z2Nat.id by lia. reflexivity. }
  split; [done|]. split; [done|]. split.
  { split; intros Hv; [rewrite HmB | rewrite HmT]; by apply Z.mod_small. }
  split.
  { split; intros Hv; [rewrite HmB | rewrite HmT].
    - rewrite <- (Z.mod_add vB 1 (2 ^ 32)) by lia. apply Z.mod_small. lia.
    - rewrite <- (Z.mod_add vT 1 (2 ^ 32)) by lia. apply Z.mod_small. lia. }
  split.
  - intros p fT Hle. rewrite Enable_blocks. cbn [orb andb].
    change (blocks w') with (blocks w).
    rewrite (bool_decide_false (_ < _)%nat) by lia. by rewrite andb_false_r.
  - intros p fB Hle. rewrite Enable_txs. cbn [orb andb].
    change (txs w') with (txs w).
    rewrite (bool_decide_false (_ < _)%nat) by lia. by rewrite andb_false_r.
Qed.

(** *** Node ids *)

Lemma to_int32_small (z : Z) : - 2 ^ 31 ≤ z < 2 ^ 31 → to_int32 z = z.
Proof. intros Hz. unfold to_int32. rewrite Z.mod_small by lia. lia. Qed.

Lemma NextNodeId_calls_run (k : nat) w :
  - 2 ^ 31 ≤ next (connmgr w) →
  next (connmgr w) + Z.of_nat k < 2 ^ 31 →
  (NextNodeId_calls k w).1 = (λ i, next (connmgr w) + Z.of_nat i) <$> seq 1 k
  ∧ next (connmgr (NextNodeId_calls k w).2) = next (connmgr w) + Z.of_nat k
  ∧ blocks (NextNodeId_calls k w).2 = blocks w
  ∧ txs (NextNodeId_calls k w).2 = txs w
  ∧ upstream (NextNodeId_calls k w).2 = upstream w
  ∧ peers (NextNodeId_calls k w).2 = peers w.
Proof.
  revert w. induction k as [|k IH]; intros w Hlo Hhi.
  - simpl. repeat split. lia.
  - cbn [NextNodeId_calls]. cbv zeta. cbn [fst snd].
    assert (Hid : (NextNodeId w).1 = next (connmgr w) + 1).
    { cbn [NextNodeId fst]. apply to_int32_small. lia. }
    assert (Hnext : next (connmgr (NextNodeId w).2) = next (connmgr w) + 1).
    { cbn [NextNodeId snd connmgr next]. apply to_int32_small. lia. }
    destruct (IH (NextNodeId w).2) as (Hids & Hn & HB & HT & HU & HP);
      [lia | lia |].
    rewrite Hids, Hn, HB, HT, HU, HP, Hid, Hnext.
    split; [|repeat split; lia].
    cbn [seq fmap list_fmap]. apply (f_equal2 cons); [lia|].
    rewrite <- (fmap_S_seq 1), <- list_fmap_compose.
    apply list_fmap_ext. intros i x _. simpl. lia.
Qed.

(** X14: as long as the counter stays inside the range of [int], [k] calls
    of [NextNodeId] return the [k] numbers that follow the counter, one by
    one: the ids are pairwise different, none of them is zero when the
    counter started at zero or above, and neither the vectors nor the peers
    are touched. *)
Theorem NextNodeId_fresh (k : nat) w :
  - 2 ^ 31 ≤ next (connmgr w) →
  next (connmgr w) + Z.of_nat k < 2 ^ 31 →
  let r := NextNodeId_calls k w in
  r.1 = (λ i, next (connmgr w) + Z.of_nat i) <$> seq 1 k
  ∧ NoDup r.1
  ∧ (0 ≤ next (connmgr w) → 0 ∉ r.1)
  ∧ next (connmgr r.2) = next (connmgr w) + Z.of_nat k
  ∧ blocks r.2 = blocks w ∧ txs r.2 = txs w ∧ upstream r.2 = upstream w
  ∧ peers r.2 = peers w.
Proof.
  intros Hlo Hhi r. subst r.
  destruct (NextNodeId_calls_run k w Hlo Hhi) as (Hids & Hrest).
  split; [done|]. rewrite Hids. split; [|split; [|done]].
  - apply NoDup_fmap_2; [|apply NoDup_seq]. intros i j Hij. lia.
  - intros Hpos Hin. apply list_elem_of_fmap in Hin as (i & Hi & Hseq).
    apply elem_of_seq in Hseq. lia.
Qed.

End helper_facts.

(** ** More on the script-check closure and the queue vector *)

Section closure_more_facts.

Import ScriptCheck.

Context {ScriptError : Type}.

Abbreviation check := (@CScriptCheck ScriptError).
Abbreviation store := (gmap ptr check).

Lemma swap_missing_this (x y : ptr) (h : store) :
  h !! x = None → swap x y h = None.
Proof. intros Hx. unfold swap, std_swap. by rewrite Hx. Qed.

Lemma swap_missing_check (x y : ptr) (h : store) :
  h !! y = None → swap x y h = None.
Proof.
  intros Hy. destruct (h !! x) as [cx|] eqn:Hx; [|by apply swap_missing_this].
  unfold swap, std_swap. by rewrite Hx, Hy.
Qed.

(** X15: [a.swap(b)] and [b.swap(a)] leave the same store, also when [a]
    and [b] are the same closure. *)
Theorem CScriptCheck_swap_symmetric (h : store) (a b : ptr) :
  swap a b h = swap b a h.
Proof.
  destruct (h !! a) as [ca|] eqn:Ha.
  2: { by rewrite swap_missing_this, swap_missing_check. }
  destruct (h !! b) as [cb|] eqn:Hb.
  2: { by rewrite swap_missing_check, swap_missing_this. }
  destruct (decide (a = b)) as [->|Hab]; [done|].
  assert (Hh : h = <[a := ca]> (<[b := cb]> h)).
  { rewrite (insert_id h b cb Hb). by rewrite insert_id. }
  assert (Hh' : h = <[b := cb]> (<[a := ca]> h)).
  { rewrite (insert_id h a ca Ha). by rewrite insert_id. }
  rewrite Hh at 1. rewrite Hh' at 2.
  rewrite !swap_distinct by done. f_equal.
  by apply insert_insert_ne.
Qed.

End closure_more_facts.

Section queue_more_facts.

Import ScriptCheckQueues.

(** X16: [Add] appends: the queues registered before keep their positions
    and the new queue is the last one; [Size] grows by one modulo 256, so the
    256th registration makes it 0 again. *)
Theorem Add_appends (pqueueIn : ptr) (q : CAllScriptCheckQueues) :
  (∀ i x, vScriptCheckQueues q !! i = Some x →
          vScriptCheckQueues (Add pqueueIn q) !! i = Some x)
  ∧ vScriptCheckQueues (Add pqueueIn q) !! length (vScriptCheckQueues q)
    = Some pqueueIn
  ∧ length (vScriptCheckQueues (Add pqueueIn q)) = S (length (vScriptCheckQueues q))
  ∧ Size (Add pqueueIn q) = (Size q + 1) mod 256
  ∧ (Size q = 255 → Size (Add pqueueIn q) = 0).
Proof.
  assert (Hsize : Size (Add pqueueIn q) = (Size q + 1) mod 256).
  { unfold Size, to_uint8. cbn [Add vScriptCheckQueues].
    rewrite length_app. cbn [length]. rewrite Nat2Z.inj_add.
    change (2 ^ 8) with 256. by rewrite Z.add_mod_idemp_l. }
  split; [|split; [|split; [|split]]].
  - intros i x Hi. cbn [Add vScriptCheckQueues]. by apply lookup_app_l_Some.
  - cbn [Add vScriptCheckQueues]. rewrite lookup_app_r by done.
    by rewrite Nat.sub_diag.
  - cbn [Add vScriptCheckQueues]. rewrite length_app. simpl. lia.
  - exact Hsize.
  - intros H255. by rewrite Hsize, H255.
Qed.

End queue_more_facts.

Section registry_more_facts.

Import ConnMgr.

Implicit Types (l vNodes : list CNode_ptr) (p q pnode : CNode_ptr).
Implicit Types (P : Peers) (w : World).

Lemma FindNode_app_present l p x : p ∈ l → FindNode (l ++ [x]) p = FindNode l p.
Proof.
  induction l as [|y l IH]; [by intros ?%elem_of_nil|].
  intros Hin. simpl. case_decide as Hy; [done|].
  apply elem_of_cons in Hin as [->|Hin]; [done|]. f_equal. by apply IH.
Qed.

(** X17: [AddNode] does not look for the node: on a vector that already
    holds it the node is stored twice, [FindNode] keeps pointing at the old
    entry, and one more reference is taken. *)
Theorem AddNode_duplicates l p P :
  p ∈ l →
  ¬ NoDup (AddNode l p P).1
  ∧ FindNode (AddNode l p P).1 p = FindNode l p
  ∧ occurrences p (AddNode l p P).1 = occurrences p l + 1
  ∧ nRefCount (AddNode l p P).2 p = nRefCount P p + 1.
Proof.
  intros Hp. cbn [AddNode fst snd]. split; [|split; [|split]].
  - intros Hnd. apply NoDup_app in Hnd as (_ & Hdisj & _).
    apply (Hdisj p Hp). by apply list_elem_of_singleton.
  - by apply FindNode_app_present.
  - rewrite occurrences_app, occurrences_cons, occurrences_nil.
    rewrite decide_True by done. lia.
  - rewrite AddRef_count. by rewrite decide_True.
Qed.

(** X18: a request for expedited blocks followed by the stop request, both
    accepted, for a peer that was no upstream source: the upstream vector and
    every reference count are as before, and the peer was sent the two
    messages in that order. *)
Theorem request_then_stop_restores w p (flags stop : Z) :
  IsThinBlocksEnabled w = true →
  ThinBlockCapable p (peers w) = true →
  truthy (Z.land flags EXPEDITED_BLOCKS) = true →
  truthy (Z.land flags EXPEDITED_STOP) = false →
  truthy (Z.land stop EXPEDITED_BLOCKS) = true →
  truthy (Z.land stop EXPEDITED_STOP) = true →
  p ∉ upstream w →
  let w' := (PushExpeditedRequest p stop (PushExpeditedRequest p flags w).2).2 in
  upstream w' = upstream w ∧ blocks w' = blocks w ∧ txs w' = txs w
  ∧ (∀ q, nRefCount (peers w') q = nRefCount (peers w) q)
  ∧ vSendMsg (peers w') p
    = vSendMsg (peers w) p ++ [(XPEDITEDREQUEST, flags); (XPEDITEDREQUEST, stop)].
Proof.
  intros Hen Hcap HfB HfS HsB HsS Hp w'. subst w'.
  set (w1 := (PushExpeditedRequest p flags w).2).
  destruct (Push_peers_frame w p flags) as [Hcap1 Hen1]. fold w1 in Hcap1, Hen1.
  assert (Hen' : IsThinBlocksEnabled w1 = true).
  { unfold IsThinBlocksEnabled. by rewrite Hen1. }
  assert (Hcap' : ThinBlockCapable p (peers w1) = true).
  { unfold ThinBlockCapable. by rewrite Hcap1. }
  assert (HU1 : upstream w1 = upstream w ++ [p]).
  { subst w1. rewrite Push_upstream, Hen, Hcap, HfB, HfS. cbn [andb].
    by rewrite bool_decide_true by by apply FindNode_end. }
  assert (HU : upstream (PushExpeditedRequest p stop w1).2 = upstream w).
  { rewrite Push_upstream, Hen', Hcap', HsB, HsS. cbn [andb].
    rewrite HU1. by apply RemoveNode_appended. }
  assert (HB : blocks (PushExpeditedRequest p stop w1).2 = blocks w).
  { subst w1. by rewrite !Push_blocks. }
  assert (HT : txs (PushExpeditedRequest p stop w1).2 = txs w).
  { subst w1. by rewrite !Push_txs. }
  split; [done|]. split; [done|]. split; [done|]. split.
  - intros q. pose proof (Push_balance w1 p stop q) as H2.
    pose proof (Push_balance w p flags q) as H1. fold w1 in H1.
    unfold references_held in H2 at 1. rewrite HU, HB, HT in H2.
    fold (references_held q w) in H2. lia.
  - rewrite (Push_messages w1 p p stop), Hen', Hcap'. subst w1.
    rewrite (Push_messages w p p flags), Hen, Hcap. cbn [andb requests_to].
    rewrite !decide_True by done. by rewrite <- app_assoc.
Qed.

End registry_more_facts.

(** *** The further properties on concrete data *)

Lemma RemoveNode_first_occurrence_witness :
  ∃ l1 l2, [3%N; 5%N; 7%N; 5%N] = l1 ++ 5%N :: l2 ∧ (5%N ∉ l1)
    ∧ (ConnMgr.RemoveNode [3%N; 5%N; 7%N; 5%N] 5%N ConnMgr.quiet_peers).2.1 = l1 ++ l2
    ∧ ConnMgr.nRefCount
        (ConnMgr.RemoveNode [3%N; 5%N; 7%N; 5%N] 5%N ConnMgr.quiet_peers).2.2 5%N
      = ConnMgr.nRefCount ConnMgr.quiet_peers 5%N - 1
    ∧ ∀ q, q ≠ 5%N →
        ConnMgr.nRefCount
          (ConnMgr.RemoveNode [3%N; 5%N; 7%N; 5%N] 5%N ConnMgr.quiet_peers).2.2 q
        = ConnMgr.nRefCount ConnMgr.quiet_peers q.
Proof.
  destruct (RemoveNode_first_occurrence [3%N; 5%N; 7%N; 5%N] 5%N ConnMgr.quiet_peers)
    as (_ & _ & Hin).
  apply Hin. apply (bool_decide_unpack _). vm_compute. exact I.
Defined.

Lemma references_follow_membership_witness :
  ConnMgr.nRefCount (ConnMgr.peers (ConnMgr.run sample_calls sample_world)) 1%N
  - ConnMgr.references_held 1%N (ConnMgr.run sample_calls sample_world)
  = ConnMgr.nRefCount (ConnMgr.peers sample_world) 1%N
    - ConnMgr.references_held 1%N sample_world.
Proof.
  apply (references_follow_membership sample_calls sample_world 1%N).
  repeat constructor.
Defined.

Lemma Enable_then_Disable_restores_witness :
  let w' := ConnMgr.DisableExpeditedSends 1%N true true
              (ConnMgr.EnableExpeditedSends 1%N true true false sample_world) in
  ConnMgr.blocks w' = ConnMgr.blocks sample_world
  ∧ ConnMgr.txs w' = ConnMgr.txs sample_world
  ∧ ConnMgr.upstream w' = ConnMgr.upstream sample_world
  ∧ (∀ q, ConnMgr.nRefCount (ConnMgr.peers w') q
          = ConnMgr.nRefCount (ConnMgr.peers sample_world) q)
  ∧ (∀ q, ConnMgr.vSendMsg (ConnMgr.peers w') q
          = ConnMgr.vSendMsg (ConnMgr.peers sample_world) q).
Proof.
  apply (Enable_then_Disable_restores sample_world 1%N true true false);
    apply not_elem_of_nil.
Defined.

Lemma full_world_inv : ConnMgr.registry_inv full_world.
Proof.
  split; [|split]; apply (bool_decide_unpack _); vm_compute; exact I.
Defined.

Lemma DisableExpeditedSends_removes_witness :
  (5%N ∉ ConnMgr.blocks (ConnMgr.DisableExpeditedSends 5%N true false full_world))
  ∧ ConnMgr.txs (ConnMgr.DisableExpeditedSends 5%N true false full_world)
    = ConnMgr.txs full_world.
Proof.
  destruct (DisableExpeditedSends_removes full_world 5%N true false full_world_inv)
    as (HB & _ & _ & HT & _).
  split; [by apply HB | by apply HT].
Defined.

Lemma RemovedNode_purges_witness :
  (5%N ∉ ConnMgr.blocks (ConnMgr.RemovedNode 5%N full_world))
  ∧ (5%N ∉ ConnMgr.txs (ConnMgr.RemovedNode 5%N full_world))
  ∧ ConnMgr.nRefCount (ConnMgr.peers (ConnMgr.RemovedNode 5%N full_world)) 5%N
    = ConnMgr.nRefCount (ConnMgr.peers full_world) 5%N
      - ConnMgr.references_held 5%N full_world.
Proof.
  destruct (RemovedNode_purges full_world 5%N full_world_inv)
    as ((HB & HT & _) & _ & _ & Hrefs & _).
  split; [exact HB|]. split; [exact HT | exact Hrefs].
Defined.

Lemma IsExpeditedUpstream_after_push_witness :
  ConnMgr.IsExpeditedUpstream 7%N
    (ConnMgr.PushExpeditedRequest 7%N (Z.lor EXPEDITED_BLOCKS EXPEDITED_STOP)
       upstream_world).2
  = false.
Proof.
  rewrite (IsExpeditedUpstream_after_push upstream_world 7%N 7%N).
  - reflexivity.
  - apply (bool_decide_unpack _). vm_compute. exact I.
Defined.

Lemma PushExpeditedRequest_flag_bits_witness :
  ConnMgr.connmgr (ConnMgr.PushExpeditedRequest 7%N EXPEDITED_BLOCKS sample_world).2
  = ConnMgr.connmgr
      (ConnMgr.PushExpeditedRequest 7%N (Z.lor EXPEDITED_BLOCKS EXPEDITED_TXNS)
         sample_world).2.
Proof.
  destruct (PushExpeditedRequest_flag_bits sample_world 7%N EXPEDITED_BLOCKS
              (Z.lor EXPEDITED_BLOCKS EXPEDITED_TXNS)) as (_ & Hmgr & _);
    [reflexivity | reflexivity | exact Hmgr].
Defined.

Lemma ExpeditedBlockNodes_snapshot_witness :
  (ConnMgr.ExpeditedBlockNodes upstream_world).1 = [7%N]
  ∧ ConnMgr.nRefCount (ConnMgr.peers (ConnMgr.ExpeditedBlockNodes upstream_world).2) 7%N
    = ConnMgr.nRefCount (ConnMgr.peers upstream_world) 7%N + 1.
Proof.
  destruct (ExpeditedBlockNodes_snapshot upstream_world) as (Hret & _ & _ & _ & Hone).
  split; [exact Hret|].
  rewrite Hone.
  - reflexivity.
  - apply (bool_decide_unpack _). vm_compute. exact I.
Defined.

Lemma FindNodeFromId_first_witness :
  ConnMgr.FindNodeFromId sample_nodes sample_GetId 9 = nullptr
  ↔ ∀ q', q' ∈ sample_nodes → sample_GetId q' ≠ 9.
Proof.
  destruct (FindNodeFromId_first sample_nodes sample_GetId 9) as [_ Hnull].
  apply Hnull. apply (bool_decide_unpack _). vm_compute. exact I.
Defined.

Lemma run_messages_witness :
  ConnMgr.vSendMsg (ConnMgr.peers (ConnMgr.run sample_calls sample_world)) 1%N
  = [(ConnMgr.XPEDITEDREQUEST, EXPEDITED_BLOCKS);
     (ConnMgr.XPEDITEDREQUEST, Z.lor EXPEDITED_BLOCKS EXPEDITED_TXNS)].
Proof.
  rewrite (run_messages sample_calls sample_world 1%N).
  - reflexivity.
  - repeat constructor.
Defined.

Lemma run_within_capacity_witness :
  (length (ConnMgr.blocks (ConnMgr.run (enable_all false (distinct_peers 40)) sample_world))
   ≤ ConnMgr.nExpeditedBlocksMax
       (ConnMgr.connmgr (ConnMgr.run (enable_all false (distinct_peers 40)) sample_world)))%nat.
Proof.
  destruct (run_within_capacity (enable_all false (distinct_peers 40)) sample_world)
    as (HB & _).
  - repeat constructor.
  - simpl. lia.
  - simpl. lia.
  - exact HB.
Defined.

Lemma HandleCommandLine_keeps_peers_witness :
  ConnMgr.blocks (ConnMgr.HandleCommandLine sample_GetArg full_world)
  = ConnMgr.blocks full_world
  ∧ Z.of_nat (ConnMgr.nExpeditedBlocksMax
                (ConnMgr.connmgr (ConnMgr.HandleCommandLine sample_GetArg full_world)))
    = 1
  ∧ ConnMgr.blocks
      (ConnMgr.EnableExpeditedSends 100%N true true false
         (ConnMgr.HandleCommandLine sample_GetArg full_world))
    = ConnMgr.blocks full_world.
Proof.
  destruct (HandleCommandLine_keeps_peers sample_GetArg full_world)
    as ((HB & _) & (Hmax & _) & _ & _ & Hrefused & _).
  split; [exact HB|]. split; [exact Hmax|]. apply Hrefused. vm_compute. discriminate.
Defined.

Lemma NextNodeId_fresh_witness :
  (ConnMgr.NextNodeId_calls 5 sample_world).1 = [1; 2; 3; 4; 5]
  ∧ (0 ∉ (ConnMgr.NextNodeId_calls 5 sample_world).1).
Proof.
  destruct (NextNodeId_fresh 5 sample_world) as (Hids & _ & Hnz & _).
  - vm_compute. discriminate.
  - vm_compute. reflexivity.
  - split; [exact Hids|]. apply Hnz. vm_compute. discriminate.
Defined.

Lemma Add_appends_witness :
  ScriptCheckQueues.Size
    (ScriptCheckQueues.Add 64%N
       (ScriptCheckQueues.add_all (replicate 255 64%N)
          ScriptCheckQueues.CAllScriptCheckQueues_ctor))
  = 0.
Proof.
  destruct (Add_appends 64%N
              (ScriptCheckQueues.add_all (replicate 255 64%N)
                 ScriptCheckQueues.CAllScriptCheckQueues_ctor))
    as (_ & _ & _ & _ & Hwrap).
  apply Hwrap. vm_compute. reflexivity.
Defined.

Lemma AddNode_duplicates_witness :
  ¬ NoDup (ConnMgr.AddNode [7%N] 7%N ConnMgr.quiet_peers).1
  ∧ ConnMgr.FindNode (ConnMgr.AddNode [7%N] 7%N ConnMgr.quiet_peers).1 7%N
    = ConnMgr.FindNode [7%N] 7%N
  ∧ ConnMgr.occurrences 7%N (ConnMgr.AddNode [7%N] 7%N ConnMgr.quiet_peers).1
    = ConnMgr.occurrences 7%N [7%N] + 1
  ∧ ConnMgr.nRefCount (ConnMgr.AddNode [7%N] 7%N ConnMgr.quiet_peers).2 7%N
    = ConnMgr.nRefCount ConnMgr.quiet_peers 7%N + 1.
Proof.
  apply (AddNode_duplicates [7%N] 7%N ConnMgr.quiet_peers).
  apply list_elem_of_here.
Defined.

Lemma request_then_stop_restores_witness :
  let w' := (ConnMgr.PushExpeditedRequest 7%N (Z.lor EXPEDITED_BLOCKS EXPEDITED_STOP)
               (ConnMgr.PushExpeditedRequest 7%N EXPEDITED_BLOCKS sample_world).2).2 in
  ConnMgr.upstream w' = ConnMgr.upstream sample_world
  ∧ ConnMgr.blocks w' = ConnMgr.blocks sample_world
  ∧ ConnMgr.txs w' = ConnMgr.txs sample_world
  ∧ (∀ q, ConnMgr.nRefCount (ConnMgr.peers w') q
          = ConnMgr.nRefCount (ConnMgr.peers sample_world) q)
  ∧ ConnMgr.vSendMsg (ConnMgr.peers w') 7%N
    = ConnMgr.vSendMsg (ConnMgr.peers sample_world) 7%N
      ++ [(ConnMgr.XPEDITEDREQUEST, EXPEDITED_BLOCKS);
          (ConnMgr.XPEDITEDREQUEST, Z.lor EXPEDITED_BLOCKS EXPEDITED_STOP)].
Proof.
  apply (request_then_stop_restores sample_world 7%N EXPEDITED_BLOCKS
           (Z.lor EXPEDITED_BLOCKS EXPEDITED_STOP));
    try reflexivity.
  apply not_elem_of_nil.
Defined.
